(** * react-todo-app: the to-do collection of [src/App.js]

    A shallow embedding of the [App] component: the seed array built by
    [createBulkTodos], the three handlers [onInsert], [onRemove] and
    [onToggle], and the part of the React hook runtime ([useState],
    [useRef], [useCallback]) that the handlers go through.

    Modelling decisions.
    - JavaScript objects have an identity, so they live in a heap and the
      program manipulates references ([loc]).  Allocation appends to the
      heap; nothing is ever collected.
    - The ids and the [nextId] counter are JavaScript Numbers that only ever
      hold non-negative integers; they are modelled by [N].  A Number is
      exact on integers up to 2^53 and [2^53 + 1] rounds back to [2^53], so
      [nextId.current += 1] is the successor only on a counter below
      [exact_below = 2^53].  The program starts the counter at 25001 and adds
      one per insertion; a statement about an arbitrary state that depends on
      the increment carries the bound as a hypothesis.
    - Strings are [string] (byte strings; the seed text is the UTF-8
      encoding of the source's template literal).
    - A computation that dereferences a dangling reference, or a reference
      to an object of the wrong kind, has no result ([None]).  The states
      the theorems speak about are the well-formed ones, where [contents]
      reads the collection back.
    - React is modelled by the contract of its hooks: [useState] and
      [useRef] initialise on the first render only, [setTodos] given an
      updater applies it to the current state, [useCallback] returns the
      remembered function while its dependencies are unchanged.  A render is
      one call of [App]; events are handled one at a time. *)

From Stdlib Require Import DecimalString Sorted.
From Equations Require Import Equations.
From stdpp Require Import base numbers strings option list.

Local Open Scope N_scope.

(** ** Objects and the heap *)

Abbreviation loc := nat (only parsing).

(** [{ id, text, checked }] *)
Record Todo := mkTodo { id : N; text : string; checked : bool }.

(** The three arrow functions that [App] builds on every render. *)
Inductive handler := InsertFn | RemoveFn | ToggleFn.

Inductive obj :=
  | OTodo (t : Todo)
  | OArray (elems : list loc)
  | OFun (code : handler) (scope_todos : loc).

Abbreviation heap := (list obj) (only parsing).

#[global] Instance Todo_eq_dec : EqDecision Todo.
Proof. solve_decision. Defined.
#[global] Instance handler_eq_dec : EqDecision handler.
Proof. solve_decision. Defined.
#[global] Instance obj_eq_dec : EqDecision obj.
Proof. solve_decision. Defined.

(** ** Heap computations: state passing with failure *)

Definition M (A : Type) : Type := heap → option (A * heap).

Definition ret {A} (x : A) : M A := λ h, Some (x, h).
Definition bind {A B} (m : M A) (k : A → M B) : M B :=
  λ h, match m h with
       | Some (x, h') => k x h'
       | None => None
       end.

Declare Scope js_scope.
Delimit Scope js_scope with js.
Notation "'let*' x := m 'in' k" := (bind m (λ x, k))
  (at level 10, x name, m at level 100, k at level 200,
   format "'let*'  x  :=  m  'in' '//' k") : js_scope.
Notation "m ;;; k" := (bind m (λ _, k))
  (at level 100, k at level 200, right associativity) : js_scope.
Local Open Scope js_scope.

(** [{ ... }], [[]] or an arrow function: a new object at a fresh reference. *)
Definition new_obj (o : obj) : M loc := λ h, Some (length h, h ++ [o]).

Definition get_array (a : loc) : M (list loc) :=
  λ h, match h !! a with
       | Some (OArray l) => Some (l, h)
       | _ => None
       end.

Definition get_todo (r : loc) : M Todo :=
  λ h, match h !! r with
       | Some (OTodo t) => Some (t, h)
       | _ => None
       end.

(** ** The Array methods the program calls *)

(** [a.push(x)]: in place. *)
Definition Array_push (a : loc) (x : loc) : M unit :=
  let* l := get_array a in
  λ h, Some (tt, <[a := OArray (l ++ [x])]> h).

(** [a.concat(x)] for an [x] that is not an array: a new array. *)
Definition Array_concat (a : loc) (x : loc) : M loc :=
  let* l := get_array a in
  new_obj (OArray (l ++ [x])).

Fixpoint filter_elems (p : loc → M bool) (l : list loc) : M (list loc) :=
  match l with
  | [] => ret []
  | x :: l' =>
      let* b := p x in
      let* k := filter_elems p l' in
      ret (if b then x :: k else k)
  end.

Fixpoint map_elems (f : loc → M loc) (l : list loc) : M (list loc) :=
  match l with
  | [] => ret []
  | x :: l' =>
      let* y := f x in
      let* k := map_elems f l' in
      ret (y :: k)
  end.

(** [a.filter(p)]: a new array. *)
Definition Array_filter (a : loc) (p : loc → M bool) : M loc :=
  let* l := get_array a in
  let* k := filter_elems p l in
  new_obj (OArray k).

(** [a.map(f)]: a new array. *)
Definition Array_map (a : loc) (f : loc → M loc) : M loc :=
  let* l := get_array a in
  let* k := map_elems f l in
  new_obj (OArray k).

(** ** [createBulkTodos] *)

(** [for (let i = lo; i <= hi; i++) body(i)] *)
Equations? for_le (i hi : N) (body : N → M unit) : M unit
  by wf (N.to_nat (N.succ hi - i)) lt :=
  for_le i hi body with decide (i ≤ hi) => {
    | left _ => body i ;;; for_le (N.succ i) hi body
    | right _ => ret tt }.
Proof. lia. Qed.

(** The decimal numeral of [i], as [`${i}`] prints it. *)
Definition decimal (i : N) : string := NilZero.string_of_uint (N.to_uint i).

(** [`할 일 ${i}`] *)
Definition seed_text (i : N) : string := "할 일 " +:+ decimal i.

Definition seed_todo (i : N) : Todo :=
  {| id := i; text := seed_text i; checked := false |}.

(** The body of [createBulkTodos] with the loop bound as a parameter. *)
Definition createBulkTodos_upto (hi : N) : M loc :=
  let* array := new_obj (OArray []) in
  for_le 0 hi (λ i,
    let* todo := new_obj (OTodo {| id := i; text := seed_text i; checked := false |}) in
    Array_push array todo) ;;;
  ret array.

Definition createBulkTodos : M loc := createBulkTodos_upto 25000.

(** ** The component state and the handlers *)

(** [todos] is the value held by [useState]; [nextId] is [nextId.current]. *)
Record state := mkState { st_heap : heap; todos : loc; nextId : N }.

(** [setTodos(updater)]: the updater receives the current value of the state
    and its result is committed. *)
Definition setTodos (updater : loc → M loc) (st : state) : option state :=
  match updater (todos st) (st_heap st) with
  | Some (a, h) => Some {| st_heap := h; todos := a; nextId := nextId st |}
  | None => None
  end.

Definition with_heap (h : heap) (st : state) : state :=
  {| st_heap := h; todos := todos st; nextId := nextId st |}.

Definition with_nextId (n : N) (st : state) : state :=
  {| st_heap := st_heap st; todos := todos st; nextId := n |}.

Definition onInsert (text : string) (st : state) : option state :=
  '(todo, h) ← new_obj (OTodo {| id := nextId st; text := text; checked := false |})
                       (st_heap st);
  st' ← setTodos (λ todos, Array_concat todos todo) (with_heap h st);
  Some (with_nextId (nextId st' + 1) st').

Definition onRemove (i : N) (st : state) : option state :=
  setTodos (λ todos,
    Array_filter todos (λ todo,
      let* t := get_todo todo in
      ret (negb (id t =? i)))) st.

Definition onToggle (i : N) (st : state) : option state :=
  setTodos (λ todos,
    Array_map todos (λ todo,
      let* t := get_todo todo in
      if id t =? i
      then new_obj (OTodo {| id := id t; text := text t; checked := negb (checked t) |})
      else ret todo)) st.

(** The cells after [useState(init)] and [useRef(first)] on the first
    render: [init] is run, on a heap that holds nothing yet. *)
Definition mount_with (init : M loc) (first : N) : option state :=
  match init [] with
  | Some (a, h) => Some {| st_heap := h; todos := a; nextId := first |}
  | None => None
  end.

(** [useState(createBulkTodos)] and [useRef(25001)]. *)
Definition mount : option state := mount_with createBulkTodos 25001.

(** ** Reading a collection back *)

Fixpoint entries (h : heap) (l : list loc) : option (list Todo) :=
  match l with
  | [] => Some []
  | r :: l' =>
      match h !! r with
      | Some (OTodo t) =>
          match entries h l' with
          | Some k => Some (t :: k)
          | None => None
          end
      | _ => None
      end
  end.

Definition refs (st : state) : option (list loc) :=
  match st_heap st !! todos st with
  | Some (OArray l) => Some l
  | _ => None
  end.

Definition contents (st : state) : option (list Todo) :=
  match refs st with
  | Some l => entries (st_heap st) l
  | None => None
  end.

(** ** Sequences of operations *)

Inductive op := Insert (text : string) | Remove (i : N) | Toggle (i : N).

Definition step (o : op) (st : state) : option state :=
  match o with
  | Insert text => onInsert text st
  | Remove i => onRemove i st
  | Toggle i => onToggle i st
  end.

Fixpoint run (ops : list op) (st : state) : option state :=
  match ops with
  | [] => Some st
  | o :: ops' => st' ← step o st; run ops' st'
  end.

(** ** The hook cells of [App] and its render function *)

(** What [useCallback] remembers: the function and the dependency array. *)
Record memo := mkMemo { m_fn : loc; m_deps : list loc }.

Record fiber := mkFiber {
  cells : state;
  cb_onInsert : memo;
  cb_onRemove : memo;
  cb_onToggle : memo }.

(** What a render hands to [TodoInsert] and [TodoList]. *)
Record props := mkProps {
  p_todos : loc;
  p_onInsert : loc;
  p_onRemove : loc;
  p_onToggle : loc }.

(** [useCallback(fn, deps)]: the remembered function while the dependencies
    are unchanged, [fn] otherwise. *)
Definition useCallback (prev : option memo) (fn : loc) (deps : list loc) : memo :=
  match prev with
  | Some m => if decide (m_deps m = deps) then m else {| m_fn := fn; m_deps := deps |}
  | None => {| m_fn := fn; m_deps := deps |}
  end.

(** One call of the component function.  [prev] is [None] on the first
    render.  Every call evaluates the three arrow functions, which closes
    them over the [todos] of that render. *)
Definition App (prev : option fiber) : option (fiber * props) :=
  st ← match prev with
       | Some f => Some (cells f)
       | None => mount
       end;
  '(f1, h1) ← new_obj (OFun InsertFn (todos st)) (st_heap st);
  let onInsert := useCallback (cb_onInsert <$> prev) f1 [] in
  '(f2, h2) ← new_obj (OFun RemoveFn (todos st)) h1;
  let onRemove := useCallback (cb_onRemove <$> prev) f2 [] in
  '(f3, h3) ← new_obj (OFun ToggleFn (todos st)) h2;
  let onToggle := useCallback (cb_onToggle <$> prev) f3 [] in
  Some ({| cells := with_heap h3 st;
           cb_onInsert := onInsert; cb_onRemove := onRemove; cb_onToggle := onToggle |},
        {| p_todos := todos st;
           p_onInsert := m_fn onInsert;
           p_onRemove := m_fn onRemove;
           p_onToggle := m_fn onToggle |}).

Definition with_cells (st : state) (f : fiber) : fiber :=
  {| cells := st;
     cb_onInsert := cb_onInsert f; cb_onRemove := cb_onRemove f;
     cb_onToggle := cb_onToggle f |}.

(** Calling the function object at [fn] with the argument carried by [e].
    The body that runs is the one of the arrow function stored there; none
    of the three bodies reads the [todos] of its scope. *)
Definition call (fn : loc) (e : op) (f : fiber) : option fiber :=
  match st_heap (cells f) !! fn with
  | Some (OFun code _) =>
      match code, e with
      | InsertFn, Insert text => st ← onInsert text (cells f); Some (with_cells st f)
      | RemoveFn, Remove i => st ← onRemove i (cells f); Some (with_cells st f)
      | ToggleFn, Toggle i => st ← onToggle i (cells f); Some (with_cells st f)
      | _, _ => None
      end
  | _ => None
  end.

(** The handle a child uses for [e], taken from the props it holds. *)
Definition handle_for (p : props) (e : op) : loc :=
  match e with
  | Insert _ => p_onInsert p
  | Remove _ => p_onRemove p
  | Toggle _ => p_onToggle p
  end.

(** The user events [es], every one sent through the handles of [held] and
    followed by a new render. *)
Fixpoint drive (held : props) (es : list op) (f : fiber) (p : props)
  : option (fiber * props) :=
  match es with
  | [] => Some (f, p)
  | e :: es' =>
      f1 ← call (handle_for held e) e f;
      '(f2, p2) ← App (Some f1);
      drive held es' f2 p2
  end.

(** ** Vocabulary of the statements *)

Definition flip_checked (t : Todo) : Todo :=
  {| id := id t; text := text t; checked := negb (checked t) |}.

(** The three operations on the sequence of entries alone. *)
Definition toggled (i : N) (ts : list Todo) : list Todo :=
  (λ t, if decide (id t = i) then flip_checked t else t) <$> ts.

Definition removed (i : N) (ts : list Todo) : list Todo :=
  filter (λ t, id t ≠ i) ts.

Definition inserted (n : N) (text : string) (ts : list Todo) : list Todo :=
  ts ++ [{| id := n; text := text; checked := false |}].

Definition applied (o : op) (n : N) (ts : list Todo) : list Todo :=
  match o with
  | Insert text => inserted n text ts
  | Remove i => removed i ts
  | Toggle i => toggled i ts
  end.

(** The ids held by the collection of [st]. *)
Definition ids (st : state) : list N :=
  match contents st with
  | Some ts => id <$> ts
  | None => []
  end.

Definition is_insert (o : op) : bool :=
  match o with
  | Insert _ => true
  | _ => false
  end.

Definition inserts (ops : list op) : nat := length (List.filter is_insert ops).

(** The removes of [ops], run from [st], whose id is in the collection at the
    time of the remove. *)
Fixpoint removes_of_existing_ids (ops : list op) (st : state) : nat :=
  match ops with
  | [] => 0
  | o :: ops' =>
      (match o with
       | Remove i => if decide (i ∈ ids st) then 1 else 0
       | _ => 0
       end +
       match step o st with
       | Some st' => removes_of_existing_ids ops' st'
       | None => 0
       end)%nat
  end.

(** A small state for examples: three seed entries, counter at 3. *)
Definition small : state :=
  {| st_heap := [OArray [1; 2; 3]%nat; OTodo (seed_todo 0); OTodo (seed_todo 1);
                 OTodo (seed_todo 2)];
     todos := 0%nat; nextId := 3 |}.

(** [r] refers to the entry [t]. *)
Definition points_to (h : heap) (r : loc) (t : Todo) : Prop :=
  h !! r = Some (OTodo t).

(** The state after the first render, in closed form. *)
Definition seeded (hi first : N) : state :=
  let cnt := N.to_nat (N.succ hi) in
  {| st_heap := OArray (seq 1 cnt)
                  :: ((λ k, OTodo (seed_todo (N.of_nat k))) <$> seq 0 cnt);
     todos := 0%nat;
     nextId := first |}.

(** The ids are pairwise distinct and all below the counter. *)
Definition ids_fresh (n : N) (ts : list Todo) : Prop :=
  NoDup (id <$> ts) ∧ Forall (λ t, id t < n) ts.

(** The three closures that a render allocates. *)
Definition closures (a : loc) : list obj :=
  [OFun InsertFn a; OFun RemoveFn a; OFun ToggleFn a].

(** What every fiber after the first render satisfies, [p0] being the props
    of the first render: the remembered functions are those of [p0], their
    dependency arrays are empty, and the function objects are the ones
    closed over the first array. *)
Record fiber_ok (p0 : props) (f : fiber) : Prop := mkFiberOk {
  ok_insert : cb_onInsert f = {| m_fn := p_onInsert p0; m_deps := [] |};
  ok_remove : cb_onRemove f = {| m_fn := p_onRemove p0; m_deps := [] |};
  ok_toggle : cb_onToggle f = {| m_fn := p_onToggle p0; m_deps := [] |};
  ok_insert_fn : st_heap (cells f) !! p_onInsert p0 = Some (OFun InsertFn (p_todos p0));
  ok_remove_fn : st_heap (cells f) !! p_onRemove p0 = Some (OFun RemoveFn (p_todos p0));
  ok_toggle_fn : st_heap (cells f) !! p_onToggle p0 = Some (OFun ToggleFn (p_todos p0)) }.

(** The fiber and the props that the first render builds over [st0]. *)
Definition first_props (st0 : state) : props :=
  {| p_todos := todos st0;
     p_onInsert := length (st_heap st0);
     p_onRemove := S (length (st_heap st0));
     p_onToggle := S (S (length (st_heap st0))) |}.

Definition first_fiber (st0 : state) : fiber :=
  {| cells := with_heap (st_heap st0 ++ closures (todos st0)) st0;
     cb_onInsert := {| m_fn := length (st_heap st0); m_deps := [] |};
     cb_onRemove := {| m_fn := S (length (st_heap st0)); m_deps := [] |};
     cb_onToggle := {| m_fn := S (S (length (st_heap st0))); m_deps := [] |} |}.

(** ** Events as the children raise them *)

#[global] Instance op_eq_dec : EqDecision op.
Proof. solve_decision. Defined.

(** The number of [Toggle k] in [ops]. *)
Definition toggles_of (k : N) (ops : list op) : nat :=
  length (List.filter (λ o, match o with Toggle i => i =? k | _ => false end) ops).

(** The id an operation names; an insert names none. *)
Definition target (o : op) : option N :=
  match o with
  | Insert _ => None
  | Remove i | Toggle i => Some i
  end.

(** The first integer that a Number cannot tell from its successor. *)
Definition exact_below : N := 2 ^ 53.

(** The operations of [ops] on the entries alone, one after the other, the
    counter starting at [n]. *)
Fixpoint applied_all (ops : list op) (n : N) (ts : list Todo) : list Todo :=
  match ops with
  | [] => ts
  | o :: ops' => applied_all ops' (if is_insert o then n + 1 else n) (applied o n ts)
  end.

(** ** Updates that wait for the render

    While an event is handled React does not run the updater given to
    [setTodos]: it queues it, and the [useState] of the next render runs the
    queued updaters in order, each on the result of the one before.  The
    rest of a handler (the new entry, [nextId.current += 1]) runs at once. *)

Record waiting := mkWaiting {
  w_cells : state;
  w_queue : list (loc → M loc) }.

(** [setTodos(updater)] while an event is handled. *)
Definition setTodos_later (updater : loc → M loc) (w : waiting) : waiting :=
  {| w_cells := w_cells w; w_queue := w_queue w ++ [updater] |}.

Definition onInsert_later (text : string) (w : waiting) : option waiting :=
  '(todo, h) ← new_obj (OTodo {| id := nextId (w_cells w); text := text;
                                 checked := false |})
                       (st_heap (w_cells w));
  let w' := setTodos_later (λ todos, Array_concat todos todo)
              {| w_cells := with_heap h (w_cells w); w_queue := w_queue w |} in
  Some {| w_cells := with_nextId (nextId (w_cells w') + 1) (w_cells w');
          w_queue := w_queue w' |}.

Definition onRemove_later (i : N) (w : waiting) : option waiting :=
  Some (setTodos_later (λ todos,
    Array_filter todos (λ todo,
      let* t := get_todo todo in
      ret (negb (id t =? i)))) w).

Definition onToggle_later (i : N) (w : waiting) : option waiting :=
  Some (setTodos_later (λ todos,
    Array_map todos (λ todo,
      let* t := get_todo todo in
      if id t =? i
      then new_obj (OTodo {| id := id t; text := text t; checked := negb (checked t) |})
      else ret todo)) w).

Definition step_later (o : op) (w : waiting) : option waiting :=
  match o with
  | Insert text => onInsert_later text w
  | Remove i => onRemove_later i w
  | Toggle i => onToggle_later i w
  end.

(** Handler calls in a row, with no render in between. *)
Fixpoint calls_later (ops : list op) (w : waiting) : option waiting :=
  match ops with
  | [] => Some w
  | o :: ops' => w' ← step_later o w; calls_later ops' w'
  end.

(** The [useState] of the next render: the queue is run in order. *)
Fixpoint flush (queue : list (loc → M loc)) (st : state) : option state :=
  match queue with
  | [] => Some st
  | updater :: queue' => st' ← setTodos updater st; flush queue' st'
  end.

(** Whatever has been allocated since, running the queue of [w] on the
    committed array gives a collection that reads [ts]. *)
Definition queue_gives (w : waiting) (ts : list Todo) : Prop :=
  ∀ h n,
    st_heap (w_cells w) `prefix_of` h →
    ∃ st',
      flush (w_queue w) {| st_heap := h; todos := todos (w_cells w); nextId := n |}
        = Some st'
      ∧ contents st' = Some ts
      ∧ nextId st' = n
      ∧ h `prefix_of` st_heap st'.

(** [todos[index]], the entry [rowRenderer] hands to the row at [index].
    A row past the end has no entry to destructure. *)
Definition row_entry (index : nat) (st : state) : option Todo :=
  l ← refs st;
  r ← l !! index;
  match st_heap st !! r with
  | Some (OTodo t) => Some t
  | _ => None
  end.

(** The two buttons of a row: [onRemove(id)] and [onToggle(id)] with the id
    of the entry the row shows. *)
Definition click_remove (index : nat) (st : state) : option state :=
  t ← row_entry index st; onRemove (id t) st.

Definition click_toggle (index : nat) (st : state) : option state :=
  t ← row_entry index st; onToggle (id t) st.

(** Position by position, the ids grow. *)
Definition increasing (l : list N) : Prop :=
  ∀ a b x y, (a < b)%nat → l !! a = Some x → l !! b = Some y → x < y.

(** A state in which two entries share the id 1. *)
Definition twins : state :=
  {| st_heap := [OArray [1; 2; 3]%nat;
                 OTodo {| id := 1; text := "a"; checked := false |};
                 OTodo {| id := 2; text := "b"; checked := false |};
                 OTodo {| id := 1; text := "c"; checked := true |}];
     todos := 0%nat; nextId := 3 |}.

(** * Properties *)

(** ** The definitions at work *)

Example seed_text_12 : seed_text 12 = "할 일 12".
Proof. reflexivity. Qed.

Example mount_small : mount_with (createBulkTodos_upto 2) 3 = Some small.
Proof. reflexivity. Qed.

Example run_small :
  (st ← run [Insert "a"; Toggle 1; Remove 0; Toggle 3] small; contents st)
  = Some [{| id := 1; text := "할 일 1"; checked := true |};
          {| id := 2; text := "할 일 2"; checked := false |};
          {| id := 3; text := "a"; checked := true |}].
Proof. reflexivity. Qed.

Example run_small_refs :
  (st ← run [Insert "a"; Toggle 1] small; refs st) = Some [1; 6; 3; 4]%nat.
Proof. reflexivity. Qed.

Example later_small :
  (w ← calls_later [Insert "a"; Toggle 1; Remove 0; Toggle 3]
         {| w_cells := small; w_queue := [] |};
   st ← flush (w_queue w) (w_cells w); contents st)
  = Some [{| id := 1; text := "할 일 1"; checked := true |};
          {| id := 2; text := "할 일 2"; checked := false |};
          {| id := 3; text := "a"; checked := true |}].
Proof. reflexivity. Qed.

Example later_small_waiting :
  (w ← calls_later [Insert "a"; Toggle 1; Remove 0; Toggle 3]
         {| w_cells := small; w_queue := [] |};
   Some (refs (w_cells w), nextId (w_cells w), length (w_queue w)))
  = Some (Some [1; 2; 3]%nat, 4, 4%nat).
Proof. reflexivity. Qed.

Example applied_all_small :
  applied_all [Insert "a"; Toggle 1; Remove 0; Toggle 3] 3
    [seed_todo 0; seed_todo 1; seed_todo 2]
  = [{| id := 1; text := "할 일 1"; checked := true |};
     {| id := 2; text := "할 일 2"; checked := false |};
     {| id := 3; text := "a"; checked := true |}].
Proof. reflexivity. Qed.

Example removes_small :
  removes_of_existing_ids [Remove 1; Remove 1; Insert "a"; Remove 9; Remove 3] small
  = 2%nat.
Proof. reflexivity. Qed.

Example useCallback_same_deps :
  useCallback (Some {| m_fn := 4%nat; m_deps := [] |}) 9%nat []
  = {| m_fn := 4%nat; m_deps := [] |}.
Proof. reflexivity. Qed.

Example useCallback_other_deps :
  useCallback (Some {| m_fn := 4%nat; m_deps := [0%nat] |}) 9%nat [5%nat]
  = {| m_fn := 9%nat; m_deps := [5%nat] |}.
Proof. reflexivity. Qed.

(** ** References and what they hold *)

Lemma entries_Forall2 h l ts :
  entries h l = Some ts ↔ Forall2 (points_to h) l ts.
Proof.
  revert ts. induction l as [|r l IH]; intros ts; simpl.
  - split; [intros [= <-]; constructor | by inversion 1].
  - split.
    + destruct (h !! r) as [[t| |]|] eqn:Hr; try done.
      destruct (entries h l) as [k|] eqn:Hk; [|done].
      intros [= <-]. constructor; [done | by apply IH].
    + inversion 1 as [|? t ? k Hr Hk]; subst.
      unfold points_to in Hr. rewrite Hr.
      apply IH in Hk. by rewrite Hk.
Qed.

Lemma points_to_prefix h h' r t :
  h `prefix_of` h' → points_to h r t → points_to h' r t.
Proof. intros Hp Hr. by eapply prefix_lookup_Some. Qed.

Lemma Forall2_points_to_prefix h h' l ts :
  h `prefix_of` h' → Forall2 (points_to h) l ts → Forall2 (points_to h') l ts.
Proof.
  intros Hp Hl. eapply Forall2_impl; [done|].
  intros r t. by apply points_to_prefix.
Qed.

Lemma prefix_snoc (h : heap) o : h `prefix_of` h ++ [o].
Proof. by apply prefix_app_r. Qed.

Lemma lookup_fresh (h : heap) o : (h ++ [o]) !! length h = Some o.
Proof. by rewrite lookup_app_r, Nat.sub_diag. Qed.

Lemma prefix_lookup_None (h h' : heap) r :
  h `prefix_of` h' → h' !! r = None → h !! r = None.
Proof.
  intros Hp Hr. destruct (h !! r) as [o|] eqn:E; [|done].
  eapply prefix_lookup_Some in E; [|done]. congruence.
Qed.

Create HintDb heap discriminated.
#[local] Hint Resolve prefix_snoc lookup_fresh points_to_prefix
  Forall2_points_to_prefix : heap.
#[local] Hint Extern 2 (_ `prefix_of` _ ++ _) => apply prefix_app_r : heap.

(** ** The array methods on an array of entries *)

Lemma bind_unfold {A B} (m : M A) (k : A → M B) h :
  bind m k h = match m h with
               | Some (x, h') => k x h'
               | None => None
               end.
Proof. reflexivity. Qed.

(** Run the first computation of a [bind] whose result [H] states. *)
Ltac bind_with H := rewrite bind_unfold, H.

(** [filter] with a callback that only reads the entry. *)
Lemma filter_elems_reads h (p : loc → M bool) (q : Todo → bool) l ts :
  (∀ r t, points_to h r t → p r h = Some (q t, h)) →
  Forall2 (points_to h) l ts →
  ∃ k, filter_elems p l h = Some (k, h)
       ∧ Forall2 (points_to h) k (filter (λ t, q t) ts)
       ∧ k `sublist_of` l.
Proof.
  intros Hp. induction 1 as [|r t l ts Hr _ (k & Hk & Hpts & Hsub)].
  - exists []. by repeat split; constructor.
  - cbn [filter_elems]. bind_with (Hp r t Hr). bind_with Hk. unfold ret.
    destruct (q t) eqn:Hq.
    + exists (r :: k). split; [done|]. split; [|by constructor].
      rewrite filter_cons_True by (by apply Is_true_true). by constructor.
    + exists k. split; [done|]. split; [|by constructor].
      by rewrite filter_cons_False by (by apply Is_true_false).
Qed.

(** [map] with a callback that copies the entries with id [i], flipping
    [checked], and returns the others as they are. *)
Lemma map_elems_copies i (f : loc → M loc) l : ∀ h ts,
  (∀ h r t, points_to h r t →
     f r h = if decide (id t = i)
             then Some (length h, h ++ [OTodo (flip_checked t)])
             else Some (r, h)) →
  Forall2 (points_to h) l ts →
  ∃ k h', map_elems f l h = Some (k, h')
       ∧ h `prefix_of` h'
       ∧ Forall2 (points_to h') k
           ((λ t, if decide (id t = i) then flip_checked t else t) <$> ts)
       ∧ ∀ n r t, l !! n = Some r → ts !! n = Some t →
           ∃ r', k !! n = Some r'
                 ∧ if decide (id t = i) then h !! r' = None else r' = r.
Proof.
  induction l as [|r l IH]; intros h ts Hf Hl.
  - inversion Hl; subst. exists [], h. simpl. by repeat split; try constructor.
  - inversion Hl as [|? t ? ts' Hr Hts]; subst.
    cbn [map_elems]. bind_with (Hf h r t Hr).
    destruct (decide (id t = i)) as [Heq|Hne].
    + set (o := OTodo _).
      destruct (IH (h ++ [o]) ts' Hf) as (k & h' & Hk & Hp & Hpts & Hsl).
      { eauto with heap. }
      bind_with Hk. unfold ret.
      exists (length h :: k), h'. split; [done|].
      assert (h `prefix_of` h') as Hp' by (etrans; [apply prefix_snoc | done]).
      split; [done|]. split.
      * simpl. constructor; [|done]. rewrite decide_True by done.
        apply (points_to_prefix (h ++ [o])); [done|]. apply lookup_fresh.
      * intros [|n] a u; simpl.
        -- intros [= <-] [= <-]. exists (length h). split; [done|].
           rewrite decide_True by done. by apply lookup_ge_None_2.
        -- intros Ha Hu. destruct (Hsl n a u Ha Hu) as (r' & Hr'' & Hc).
           exists r'. split; [done|]. case_decide; [|done].
           eapply prefix_lookup_None; [apply prefix_snoc | done].
    + destruct (IH h ts' Hf Hts) as (k & h' & Hk & Hp & Hpts & Hsl).
      bind_with Hk. unfold ret.
      exists (r :: k), h'. split; [done|]. split; [done|]. split.
      * simpl. constructor; [|done]. rewrite decide_False by done.
        by eapply points_to_prefix.
      * intros [|n] a u; simpl.
        -- intros [= <-] [= <-]. exists r. split; [done|].
           by rewrite decide_False.
        -- apply Hsl.
Qed.

(** ** The seed loop *)

Lemma for_le_step i hi body :
  for_le i hi body =
    if decide (i ≤ hi) then (body i ;;; for_le (N.succ i) hi body) else ret tt.
Proof.
  etrans; [apply for_le_equation_1|].
  destruct (decide (i ≤ hi)).
  - by rewrite for_le_clause_1_equation_1.
  - by rewrite for_le_clause_1_equation_2.
Qed.

Lemma for_le_push hi cnt : ∀ i l tl,
  N.to_nat (N.succ hi - i) = cnt →
  for_le i hi (λ i,
    let* todo := new_obj (OTodo {| id := i; text := seed_text i; checked := false |}) in
    Array_push 0%nat todo) (OArray l :: tl)
  = Some (tt, OArray (l ++ seq (S (length tl)) cnt)
                :: tl ++ ((λ k, OTodo (seed_todo (i + N.of_nat k))) <$> seq 0 cnt)).
Proof.
  induction cnt as [|c IH]; intros i l tl Hc; rewrite for_le_step.
  - rewrite decide_False by lia. simpl. by rewrite !app_nil_r.
  - rewrite decide_True by lia.
    rewrite bind_unfold, bind_unfold. unfold new_obj at 1.
    unfold Array_push. rewrite bind_unfold. unfold get_array. simpl.
    rewrite IH by lia. do 3 f_equal.
    + rewrite <- app_assoc. simpl. by rewrite length_app, Nat.add_1_r.
    + rewrite <- app_assoc. simpl. do 2 f_equal.
      * change (N.of_nat 0) with 0. by rewrite N.add_0_r.
      * rewrite <- fmap_S_seq, <- list_fmap_compose.
        apply list_fmap_ext. intros _ k _. simpl. do 2 f_equal. lia.
Qed.

Lemma mount_with_seeded hi first :
  mount_with (createBulkTodos_upto hi) first = Some (seeded hi first).
Proof.
  unfold mount_with, createBulkTodos_upto.
  rewrite bind_unfold. unfold new_obj at 1. simpl length. simpl app.
  rewrite bind_unfold.
  rewrite (for_le_push hi (N.to_nat (N.succ hi))) by (f_equal; lia).
  unfold ret, seeded. simpl. do 3 f_equal.
Qed.

(** ** The handlers on a well-formed state *)

Lemma contents_Some st ts :
  contents st = Some ts ↔
  ∃ l, refs st = Some l ∧ Forall2 (points_to (st_heap st)) l ts.
Proof.
  unfold contents. destruct (refs st) as [l|].
  - rewrite entries_Forall2. split; [by exists l | by intros (? & [= <-] & ?)].
  - split; [done | by intros (? & ? & ?)].
Qed.

Lemma refs_Some st l :
  refs st = Some l ↔ st_heap st !! todos st = Some (OArray l).
Proof.
  unfold refs. destruct (st_heap st !! todos st) as [[]|]; naive_solver.
Qed.

Lemma onInsert_spec st l text :
  refs st = Some l →
  onInsert text st =
    Some {| st_heap := st_heap st
                         ++ [OTodo {| id := nextId st; text := text; checked := false |};
                             OArray (l ++ [length (st_heap st)])];
            todos := S (length (st_heap st));
            nextId := nextId st + 1 |}.
Proof.
  intros Hl%refs_Some. unfold onInsert, new_obj. simpl.
  unfold setTodos, Array_concat. simpl. rewrite bind_unfold.
  unfold get_array. rewrite lookup_app_l by by eapply lookup_lt_Some.
  rewrite Hl. unfold new_obj. simpl.
  unfold with_nextId. simpl. rewrite length_app, Nat.add_1_r.
  by rewrite <- app_assoc.
Qed.

Lemma onRemove_spec st l ts i :
  refs st = Some l →
  Forall2 (points_to (st_heap st)) l ts →
  ∃ k, onRemove i st =
         Some {| st_heap := st_heap st ++ [OArray k];
                 todos := length (st_heap st);
                 nextId := nextId st |}
       ∧ Forall2 (points_to (st_heap st)) k (removed i ts)
       ∧ k `sublist_of` l.
Proof.
  intros Hl%refs_Some Hts. unfold removed.
  edestruct (filter_elems_reads (st_heap st)
               (λ todo, let* t := get_todo todo in ret (negb (id t =? i)))
               (λ t, negb (id t =? i)) l ts) as (k & Hk & Hpts & Hsub); [|done|].
  { intros r t Hr. rewrite bind_unfold. unfold get_todo.
    unfold points_to in Hr. by rewrite Hr. }
  exists k. split; [|split; [|done]].
  - unfold onRemove, setTodos, Array_filter. rewrite bind_unfold.
    unfold get_array. rewrite Hl. by bind_with Hk.
  - erewrite list_filter_iff; [done|]. intros t. simpl.
    rewrite negb_True, Is_true_true, N.eqb_eq. done.
Qed.

Lemma onToggle_spec st l ts i :
  refs st = Some l →
  Forall2 (points_to (st_heap st)) l ts →
  ∃ k h', onToggle i st =
            Some {| st_heap := h' ++ [OArray k]; todos := length h';
                    nextId := nextId st |}
       ∧ st_heap st `prefix_of` h'
       ∧ Forall2 (points_to h') k (toggled i ts)
       ∧ ∀ n r t, l !! n = Some r → ts !! n = Some t →
           ∃ r', k !! n = Some r'
                 ∧ if decide (id t = i) then st_heap st !! r' = None else r' = r.
Proof.
  intros Hl%refs_Some Hts. unfold toggled.
  edestruct (map_elems_copies i
               (λ todo,
                  let* t := get_todo todo in
                  if id t =? i
                  then new_obj (OTodo {| id := id t; text := text t;
                                         checked := negb (checked t) |})
                  else ret todo) l (st_heap st) ts)
    as (k & h' & Hk & Hp & Hpts & Hsl); [|done|].
  { intros h r t Hr. rewrite bind_unfold. unfold get_todo.
    unfold points_to in Hr. rewrite Hr.
    destruct (N.eqb_spec (id t) i); [by rewrite decide_True | by rewrite decide_False]. }
  exists k, h'. split; [|done].
  unfold onToggle, setTodos, Array_map. rewrite bind_unfold.
  unfold get_array. rewrite Hl. by bind_with Hk.
Qed.

Lemma contents_alloc_array h k ts n :
  Forall2 (points_to h) k ts →
  contents {| st_heap := h ++ [OArray k]; todos := length h; nextId := n |} = Some ts.
Proof.
  intros Hk. apply contents_Some. exists k. split.
  - apply refs_Some. simpl. auto with heap.
  - simpl. eauto with heap.
Qed.

Lemma onInsert_contents st ts text :
  contents st = Some ts →
  ∃ st', onInsert text st = Some st'
         ∧ contents st' = Some (inserted (nextId st) text ts)
         ∧ nextId st' = nextId st + 1
         ∧ st_heap st `prefix_of` st_heap st'
         ∧ (todos st < todos st')%nat.
Proof.
  intros (l & Hl & Hts)%contents_Some.
  pose proof Hl as Hlt%refs_Some%lookup_lt_Some.
  eexists. split; [by apply onInsert_spec|].
  split; [|split; [done|split; [|simpl; lia]]].
  - apply contents_Some. exists (l ++ [length (st_heap st)]). simpl. split.
    + apply refs_Some. simpl. rewrite lookup_app_r by lia.
      by replace (S (length (st_heap st)) - length (st_heap st))%nat with 1%nat by lia.
    + apply Forall2_app.
      * eauto with heap.
      * constructor; [|constructor]. unfold points_to.
        by rewrite lookup_app_r, Nat.sub_diag.
  - simpl. by apply prefix_app_r.
Qed.

Lemma onRemove_contents st ts i :
  contents st = Some ts →
  ∃ st', onRemove i st = Some st'
         ∧ contents st' = Some (removed i ts)
         ∧ nextId st' = nextId st
         ∧ st_heap st `prefix_of` st_heap st'
         ∧ (todos st < todos st')%nat.
Proof.
  intros (l & Hl & Hts)%contents_Some.
  pose proof Hl as Hlt%refs_Some%lookup_lt_Some.
  destruct (onRemove_spec st l ts i Hl Hts) as (k & -> & Hk & _).
  eexists. split; [done|]. split; [by apply contents_alloc_array|].
  split; [done|]. split; [apply prefix_snoc | done].
Qed.

Lemma onToggle_contents st ts i :
  contents st = Some ts →
  ∃ st', onToggle i st = Some st'
         ∧ contents st' = Some (toggled i ts)
         ∧ nextId st' = nextId st
         ∧ st_heap st `prefix_of` st_heap st'
         ∧ (todos st < todos st')%nat.
Proof.
  intros (l & Hl & Hts)%contents_Some.
  pose proof Hl as Hlt%refs_Some%lookup_lt_Some.
  destruct (onToggle_spec st l ts i Hl Hts) as (k & h' & -> & Hp & Hk & _).
  eexists. split; [done|]. split; [by apply contents_alloc_array|].
  split; [done|]. split; [simpl; by apply prefix_app_r|].
  simpl. apply prefix_length in Hp. lia.
Qed.

Lemma step_contents o st ts :
  contents st = Some ts →
  ∃ st', step o st = Some st'
         ∧ contents st' = Some (applied o (nextId st) ts)
         ∧ nextId st' = (if is_insert o then nextId st + 1 else nextId st)
         ∧ st_heap st `prefix_of` st_heap st'
         ∧ (todos st < todos st')%nat.
Proof.
  destruct o; simpl;
    [apply onInsert_contents | apply onRemove_contents | apply onToggle_contents].
Qed.

(** Operations on an absent id. *)
Lemma removed_absent i ts : i ∉ id <$> ts → removed i ts = ts.
Proof.
  intros Hi. unfold removed. induction ts as [|t ts IH]; [done|].
  rewrite fmap_cons, not_elem_of_cons in Hi. destruct Hi as [Hne Hi].
  rewrite filter_cons_True by done. by rewrite IH.
Qed.

Lemma toggled_absent i ts : i ∉ id <$> ts → toggled i ts = ts.
Proof.
  intros Hi. unfold toggled. induction ts as [|t ts IH]; [done|].
  rewrite fmap_cons, not_elem_of_cons in Hi. destruct Hi as [Hne Hi].
  rewrite fmap_cons, decide_False by done. by rewrite IH.
Qed.

Lemma flip_checked_twice t : flip_checked (flip_checked t) = t.
Proof. destruct t as [n s b]. unfold flip_checked. simpl. by rewrite negb_involutive. Qed.

Lemma toggled_twice i ts : toggled i (toggled i ts) = ts.
Proof.
  unfold toggled. rewrite <- list_fmap_compose.
  rewrite <- (list_fmap_id ts) at 2. apply list_fmap_ext. intros _ t _. simpl.
  destruct (decide (id t = i)) as [Heq|Hne].
  - rewrite decide_True by done. apply flip_checked_twice.
  - by rewrite decide_False.
Qed.

Lemma toggled_lookup i ts n t :
  ts !! n = Some t →
  toggled i ts !! n =
    Some (if decide (id t = i)
          then {| id := id t; text := text t; checked := negb (checked t) |}
          else t).
Proof. intros Hn. unfold toggled. by rewrite list_lookup_fmap, Hn. Qed.

Lemma prefix_lookup_length (h h' : heap) : h `prefix_of` h' → h !! length h' = None.
Proof. intros Hp%prefix_length. by apply lookup_ge_None_2. Qed.

(** ** The operations of the collection store *)

(** C1. On every well-formed state and for every id, [onToggle] returns a
    new array (a reference that did not exist before; the old array is left
    as it was) whose entries are those of the input, position by position,
    with [checked] negated and [id] and [text] kept where the id matches,
    and unchanged elsewhere.  When no entry has the id, the content is that
    of the input. *)
Theorem onToggle_flips_matching st ts i :
  contents st = Some ts →
  ∃ st' ts',
    onToggle i st = Some st'
    ∧ contents st' = Some ts'
    ∧ st_heap st !! todos st' = None
    ∧ st_heap st' !! todos st = st_heap st !! todos st
    ∧ length ts' = length ts
    ∧ (∀ n t, ts !! n = Some t →
         ts' !! n =
           Some (if decide (id t = i)
                 then {| id := id t; text := text t; checked := negb (checked t) |}
                 else t))
    ∧ (i ∉ id <$> ts → ts' = ts).
Proof.
  intros (l & Hl & Hts)%contents_Some.
  destruct (onToggle_spec st l ts i Hl Hts) as (k & h' & -> & Hp & Hk & _).
  eexists _, (toggled i ts). split; [done|].
  split; [by apply contents_alloc_array|]. simpl.
  split; [by apply prefix_lookup_length|]. split.
  { apply refs_Some in Hl. rewrite Hl.
    eapply prefix_lookup_Some; [done|]. etrans; [done|]. by apply prefix_app_r. }
  split; [apply length_fmap|].
  split; [intros n t; apply toggled_lookup | apply toggled_absent].
Qed.

Lemma onToggle_flips_matching_witness :
  ∃ st' ts',
    onToggle 1 small = Some st'
    ∧ contents st' = Some ts'
    ∧ st_heap small !! todos st' = None
    ∧ st_heap st' !! todos small = st_heap small !! todos small
    ∧ length ts' = length [seed_todo 0; seed_todo 1; seed_todo 2]
    ∧ (∀ n t, [seed_todo 0; seed_todo 1; seed_todo 2] !! n = Some t →
         ts' !! n =
           Some (if decide (id t = 1)
                 then {| id := id t; text := text t; checked := negb (checked t) |}
                 else t))
    ∧ (1 ∉ id <$> [seed_todo 0; seed_todo 1; seed_todo 2] →
       ts' = [seed_todo 0; seed_todo 1; seed_todo 2]).
Proof. apply (onToggle_flips_matching small _ 1). reflexivity. Defined.

(** C2. [onToggle] keeps, at every position whose entry has another id, the
    very reference the input array holds there, and puts a reference that did
    not exist before where the id matches; [onInsert] returns an array made
    of the references of the input array, in order, followed by one reference
    that did not exist before.  Neither changes any object that existed. *)
Theorem mutations_share_entries st l ts i text :
  refs st = Some l →
  contents st = Some ts →
  (∃ st' k,
      onToggle i st = Some st'
      ∧ refs st' = Some k
      ∧ length k = length l
      ∧ (∀ r o, st_heap st !! r = Some o → st_heap st' !! r = Some o)
      ∧ (∀ n r t, l !! n = Some r → ts !! n = Some t → id t ≠ i →
           k !! n = Some r)
      ∧ (∀ n r t, l !! n = Some r → ts !! n = Some t → id t = i →
           ∃ r', k !! n = Some r' ∧ st_heap st !! r' = None))
  ∧ (∃ st' r',
      onInsert text st = Some st'
      ∧ refs st' = Some (l ++ [r'])
      ∧ st_heap st !! r' = None
      ∧ st_heap st' !! r'
        = Some (OTodo {| id := nextId st; text := text; checked := false |})
      ∧ (∀ r o, st_heap st !! r = Some o → st_heap st' !! r = Some o)).
Proof.
  intros Hl (l0 & Hl0 & Hts)%contents_Some.
  rewrite Hl in Hl0. injection Hl0 as <-. split.
  - destruct (onToggle_spec st l ts i Hl Hts) as (k & h' & -> & Hp & Hk & Hsl).
    eexists _, k. split; [done|].
    split; [apply refs_Some; simpl; apply lookup_fresh|].
    split.
    { apply Forall2_length in Hk, Hts. unfold toggled in Hk.
      rewrite length_fmap in Hk. congruence. }
    split.
    { intros r o Hr. simpl. eapply prefix_lookup_Some; [done|].
      etrans; [done|]. by apply prefix_app_r. }
    split.
    + intros n r t Hn Ht Hne. destruct (Hsl n r t Hn Ht) as (r' & Hr' & Hc).
      rewrite decide_False in Hc by done. by subst.
    + intros n r t Hn Ht Heq. destruct (Hsl n r t Hn Ht) as (r' & Hr' & Hc).
      rewrite decide_True in Hc by done. by exists r'.
  - eexists _, (length (st_heap st)). split; [by apply onInsert_spec|].
    split.
    { apply refs_Some. simpl. rewrite lookup_app_r by lia.
      by replace (S (length (st_heap st)) - length (st_heap st))%nat
        with 1%nat by lia. }
    split; [by apply lookup_ge_None_2|].
    split; [simpl; by rewrite lookup_app_r, Nat.sub_diag|].
    intros r o Hr. simpl. by apply lookup_app_l_Some.
Qed.

Lemma mutations_share_entries_witness :
  (∃ st' k,
      onToggle 1 small = Some st'
      ∧ refs st' = Some k
      ∧ length k = length [1; 2; 3]%nat
      ∧ (∀ r o, st_heap small !! r = Some o → st_heap st' !! r = Some o)
      ∧ (∀ n r t, [1; 2; 3]%nat !! n = Some r →
           [seed_todo 0; seed_todo 1; seed_todo 2] !! n = Some t → id t ≠ 1 →
           k !! n = Some r)
      ∧ (∀ n r t, [1; 2; 3]%nat !! n = Some r →
           [seed_todo 0; seed_todo 1; seed_todo 2] !! n = Some t → id t = 1 →
           ∃ r', k !! n = Some r' ∧ st_heap small !! r' = None))
  ∧ (∃ st' r',
      onInsert "a" small = Some st'
      ∧ refs st' = Some ([1; 2; 3]%nat ++ [r'])
      ∧ st_heap small !! r' = None
      ∧ st_heap st' !! r'
        = Some (OTodo {| id := nextId small; text := "a"; checked := false |})
      ∧ (∀ r o, st_heap small !! r = Some o → st_heap st' !! r = Some o)).
Proof. apply (mutations_share_entries small _ _ 1 "a"); reflexivity. Defined.

(** C3. On every well-formed state whose counter is below 2^53 (where a
    Number still has a successor) and for every text, [onInsert] leaves the
    entries of the collection as they were and in the same order, adds
    [{id: nextId.current, text, checked: false}] after them, and increases
    [nextId.current] by one. *)
Theorem onInsert_appends st ts text :
  contents st = Some ts →
  nextId st < exact_below →
  ∃ st',
    onInsert text st = Some st'
    ∧ contents st' =
        Some (ts ++ [{| id := nextId st; text := text; checked := false |}])
    ∧ nextId st' = nextId st + 1.
Proof.
  intros Hc _. destruct (onInsert_contents st ts text Hc) as (st' & ? & ? & ? & _).
  by exists st'.
Qed.

Lemma onInsert_appends_witness :
  ∃ st',
    onInsert "a" small = Some st'
    ∧ contents st' =
        Some ([seed_todo 0; seed_todo 1; seed_todo 2]
                ++ [{| id := nextId small; text := "a"; checked := false |}])
    ∧ nextId st' = nextId small + 1.
Proof. apply (onInsert_appends small _ "a"); reflexivity. Defined.

(** C4. On every well-formed state and for every id, [onRemove] returns the
    entries whose id differs from the given one, in their original order.
    [onRemove] and [onToggle] both return a result on every id, and for an
    id that no entry has the content of the result is that of the input. *)
Theorem onRemove_filters st ts i :
  contents st = Some ts →
  (∃ st',
      onRemove i st = Some st'
      ∧ contents st' = Some (filter (λ t, id t ≠ i) ts)
      ∧ (i ∉ id <$> ts → contents st' = Some ts))
  ∧ (∃ st',
      onToggle i st = Some st'
      ∧ (i ∉ id <$> ts → contents st' = Some ts)).
Proof.
  intros Hc. split.
  - destruct (onRemove_contents st ts i Hc) as (st' & Hst & Hts & _).
    exists st'. split; [done|]. split; [done|].
    intros Hi. by rewrite Hts, removed_absent.
  - destruct (onToggle_contents st ts i Hc) as (st' & Hst & Hts & _).
    exists st'. split; [done|].
    intros Hi. by rewrite Hts, toggled_absent.
Qed.

Lemma onRemove_filters_witness :
  (∃ st',
      onRemove 7 small = Some st'
      ∧ contents st' =
          Some (filter (λ t, id t ≠ 7) [seed_todo 0; seed_todo 1; seed_todo 2])
      ∧ (7 ∉ id <$> [seed_todo 0; seed_todo 1; seed_todo 2] →
         contents st' = Some [seed_todo 0; seed_todo 1; seed_todo 2]))
  ∧ (∃ st',
      onToggle 7 small = Some st'
      ∧ (7 ∉ id <$> [seed_todo 0; seed_todo 1; seed_todo 2] →
         contents st' = Some [seed_todo 0; seed_todo 1; seed_todo 2])).
Proof. apply (onRemove_filters small _ 7). reflexivity. Defined.

(** C5. On every well-formed state and for every id (present or not), two
    [onToggle] calls with that id in a row give back the content the
    collection had before them. *)
Theorem onToggle_twice st ts i :
  contents st = Some ts →
  ∃ st1 st2,
    onToggle i st = Some st1
    ∧ onToggle i st1 = Some st2
    ∧ contents st2 = Some ts.
Proof.
  intros Hc.
  destruct (onToggle_contents st ts i Hc) as (st1 & Hst1 & Hts1 & _).
  destruct (onToggle_contents st1 _ i Hts1) as (st2 & Hst2 & Hts2 & _).
  exists st1, st2. split; [done|]. split; [done|].
  by rewrite Hts2, toggled_twice.
Qed.

Lemma onToggle_twice_witness :
  ∃ st1 st2,
    onToggle 1 small = Some st1
    ∧ onToggle 1 st1 = Some st2
    ∧ contents st2 = Some [seed_todo 0; seed_todo 1; seed_todo 2].
Proof. apply (onToggle_twice small _ 1). reflexivity. Defined.

(** ** The seeded state *)

Lemma seeded_contents hi first :
  contents (seeded hi first)
  = Some ((λ k, seed_todo (N.of_nat k)) <$> seq 0 (N.to_nat (N.succ hi))).
Proof.
  apply contents_Some. exists (seq 1 (N.to_nat (N.succ hi))).
  split; [done|]. simpl.
  apply Forall2_same_length_lookup_2.
  { by rewrite length_fmap, !length_seq. }
  intros n r t [-> Hn]%lookup_seq Ht.
  rewrite list_lookup_fmap, lookup_seq_lt in Ht by done.
  injection Ht as <-. unfold points_to. simpl.
  by rewrite list_lookup_fmap, lookup_seq_lt.
Qed.

Lemma seeded_ids hi :
  id <$> ((λ k, seed_todo (N.of_nat k)) <$> seq 0 (N.to_nat (N.succ hi)))
  = N.of_nat <$> seq 0 (N.to_nat (N.succ hi)).
Proof. by rewrite <- list_fmap_compose. Qed.

Lemma seeded_lookup hi (k : N) :
  k ≤ hi →
  ((λ k, seed_todo (N.of_nat k)) <$> seq 0 (N.to_nat (N.succ hi))) !! N.to_nat k
  = Some (seed_todo k).
Proof.
  intros Hk. rewrite list_lookup_fmap, lookup_seq_lt by lia.
  simpl. by rewrite N2Nat.id.
Qed.

(** ** Invariants of the runs *)

Lemma seeded_ids_fresh hi first :
  hi < first →
  ids_fresh first ((λ k, seed_todo (N.of_nat k)) <$> seq 0 (N.to_nat (N.succ hi))).
Proof.
  intros Hlt. split.
  - rewrite seeded_ids. apply NoDup_fmap; [apply _ | apply NoDup_seq].
  - apply Forall_fmap, Forall_forall. intros k [_ Hk]%elem_of_seq. simpl. lia.
Qed.

Lemma toggled_ids i ts : id <$> toggled i ts = id <$> ts.
Proof.
  unfold toggled. rewrite <- list_fmap_compose. apply list_fmap_ext.
  intros _ t _. simpl. by destruct (decide (id t = i)).
Qed.

Lemma applied_ids_fresh o n ts :
  ids_fresh n ts →
  ids_fresh (if is_insert o then n + 1 else n) (applied o n ts).
Proof.
  intros [Hnd Hlt]. destruct o as [text|i|i]; simpl.
  - unfold inserted. split.
    + rewrite fmap_app. apply NoDup_app. split; [done|]. split.
      * intros x Hx [->|[]%elem_of_nil]%elem_of_cons.
        apply list_elem_of_fmap in Hx as (t & Ht & Hin).
        rewrite Forall_forall in Hlt. apply Hlt in Hin. simpl in Ht. lia.
      * apply NoDup_singleton.
    + apply Forall_app. split.
      * eapply Forall_impl; [done|]. intros t Ht. simpl in Ht. lia.
      * constructor; [simpl; lia | constructor].
  - unfold removed. split.
    + eapply sublist_NoDup; [done|]. apply fmap_sublist, sublist_filter.
    + rewrite Forall_forall in Hlt. apply Forall_forall.
      intros t [_ Ht]%list_elem_of_filter. by apply Hlt.
  - split; [by rewrite toggled_ids|].
    unfold toggled. apply Forall_fmap. eapply Forall_impl; [done|].
    intros t Ht. simpl. by destruct (decide (id t = i)).
Qed.

(** With distinct ids a remove takes away exactly one entry, or none. *)
Lemma removed_length i ts :
  NoDup (id <$> ts) →
  (length (removed i ts) + (if decide (i ∈ id <$> ts) then 1 else 0) = length ts)%nat.
Proof.
  unfold removed. induction ts as [|t ts IH]; intros Hnd.
  - by destruct (decide (i ∈ id <$> [])) as [?%elem_of_nil|].
  - rewrite fmap_cons in Hnd. apply NoDup_cons in Hnd as [Hnotin Hnd].
    specialize (IH Hnd). destruct (decide (id t = i)) as [<-|Hne].
    + rewrite filter_cons_False by naive_solver.
      rewrite decide_False in IH by done.
      rewrite fmap_cons, decide_True by apply list_elem_of_here.
      simpl. lia.
    + rewrite filter_cons_True by done. rewrite fmap_cons. simpl.
      destruct (decide (i ∈ id <$> ts)) as [Hin|Hnin].
      * rewrite decide_True by by apply list_elem_of_further. lia.
      * rewrite decide_False; [lia|].
        intros [->|?]%elem_of_cons; done.
Qed.

Lemma run_app ops1 ops2 st :
  run (ops1 ++ ops2) st = st' ← run ops1 st; run ops2 st'.
Proof.
  revert st. induction ops1 as [|o ops1 IH]; intros st; simpl; [done|].
  destruct (step o st) as [st1|]; simpl; [apply IH | done].
Qed.

Lemma ids_contents st ts : contents st = Some ts → ids st = id <$> ts.
Proof. intros Hc. unfold ids. by rewrite Hc. Qed.

(** Every run from a well-formed state with fresh ids ends, in a state of the
    same kind; the counter has grown by the number of inserts and the length
    by the inserts less the removes that hit. *)
Lemma run_invariant ops : ∀ st ts,
  contents st = Some ts →
  ids_fresh (nextId st) ts →
  ∃ st' ts',
    run ops st = Some st'
    ∧ contents st' = Some ts'
    ∧ ids_fresh (nextId st') ts'
    ∧ nextId st' = nextId st + N.of_nat (inserts ops)
    ∧ (length ts' + removes_of_existing_ids ops st = length ts + inserts ops)%nat.
Proof.
  induction ops as [|o ops IH]; intros st ts Hc Hf.
  - exists st, ts. simpl. unfold inserts. simpl.
    split; [done|]. split; [done|]. split; [done|]. split; lia.
  - destruct (step_contents o st ts Hc) as (st1 & Hst1 & Hc1 & Hn1 & _).
    pose proof (applied_ids_fresh o _ _ Hf) as Hf1. rewrite <- Hn1 in Hf1.
    destruct (IH st1 _ Hc1 Hf1) as (st' & ts' & Hrun & Hc' & Hf' & Hn' & Hlen).
    exists st', ts'. cbn [run removes_of_existing_ids]. rewrite Hst1. simpl.
    split; [done|]. split; [done|]. split; [done|].
    unfold inserts in *. rewrite (ids_contents st ts Hc).
    destruct o as [text|i|i]; simpl in *.
    + split; [lia|]. unfold inserted in Hlen. rewrite length_app in Hlen.
      simpl in Hlen. lia.
    + split; [lia|]. pose proof (removed_length i ts (proj1 Hf)). lia.
    + split; [lia|]. unfold toggled in Hlen. rewrite length_fmap in Hlen. lia.
Qed.

Lemma removes_of_existing_ids_le ops : ∀ st,
  (removes_of_existing_ids ops st ≤ length ops)%nat.
Proof.
  induction ops as [|o ops IH]; intros st; simpl; [lia|].
  assert ((match o with
           | Remove i => if decide (i ∈ ids st) then 1 else 0
           | _ => 0
           end ≤ 1)%nat) by (destruct o; try case_decide; lia).
  destruct (step o st) as [st'|]; [specialize (IH st')|]; lia.
Qed.

Lemma mount_seeded : mount = Some (seeded 25000 25001).
Proof. apply mount_with_seeded. Qed.

Lemma seeded_length hi :
  N.of_nat (length ((λ k, seed_todo (N.of_nat k)) <$> seq 0 (N.to_nat (N.succ hi))))
  = N.succ hi.
Proof. by rewrite length_fmap, length_seq, N2Nat.id. Qed.

Lemma seeded_run_length hi first ops :
  hi < first →
  ∃ st ts,
    run ops (seeded hi first) = Some st
    ∧ contents st = Some ts
    ∧ Z.of_nat (length ts)
      = (Z.of_N (N.succ hi) + Z.of_nat (inserts ops)
         - Z.of_nat (removes_of_existing_ids ops (seeded hi first)))%Z.
Proof.
  intros Hlt.
  destruct (run_invariant ops (seeded hi first) _ (seeded_contents _ _))
    as (st & ts & Hrun & Hc & _ & _ & Hlen).
  { by apply seeded_ids_fresh. }
  exists st, ts. split; [done|]. split; [done|].
  pose proof (seeded_length hi) as Hseed. lia.
Qed.

(** ** The seed *)

(** C10. The first render leaves a collection of exactly 25001 entries; the
    entry at position [k], for every [k] from 0 to 25000, has id [k], the
    seed text of [k] and [checked = false]; and [nextId.current] is 25001. *)
Theorem seed_collection :
  ∃ st ts,
    mount = Some st
    ∧ contents st = Some ts
    ∧ N.of_nat (length ts) = 25001
    ∧ (∀ k, k ≤ 25000 →
         ts !! N.to_nat k = Some {| id := k; text := seed_text k; checked := false |})
    ∧ nextId st = 25001.
Proof.
  eexists _, _. split; [apply mount_seeded|].
  split; [apply seeded_contents|].
  split; [apply (seeded_length 25000)|].
  split; [apply seeded_lookup | done].
Qed.

(** ** Sequences of operations from the seeded state *)

(** C6, as the code has it.  After every sequence of operations from the
    seeded state the collection holds 25001 entries, plus one per insert,
    less one per remove whose id was in the collection at the time. *)
Theorem length_after_run ops :
  ∃ st0 st ts,
    mount = Some st0
    ∧ run ops st0 = Some st
    ∧ contents st = Some ts
    ∧ Z.of_nat (length ts)
      = (25001 + Z.of_nat (inserts ops)
         - Z.of_nat (removes_of_existing_ids ops st0))%Z.
Proof.
  destruct (seeded_run_length 25000 25001 ops eq_refl) as (st & ts & Hrun & Hc & Hlen).
  exists (seeded 25000 25001), st, ts.
  split; [apply mount_seeded|]. split; [done|]. split; [done|]. exact Hlen.
Qed.

(** C6 as stated fails already on the empty sequence: no insert, no remove,
    and the collection holds the seed entries. *)
Lemma length_after_run_ignores_seed :
  ∃ st0 st ts,
    mount = Some st0
    ∧ run [] st0 = Some st
    ∧ contents st = Some ts
    ∧ Z.of_nat (length ts)
      ≠ (Z.of_nat (inserts []) - Z.of_nat (removes_of_existing_ids [] st0))%Z.
Proof.
  destruct (seeded_run_length 25000 25001 [] eq_refl) as (st & ts & Hrun & Hc & Hlen).
  exists (seeded 25000 25001), st, ts.
  split; [apply mount_seeded|]. split; [done|]. split; [done|].
  rewrite Hlen. done.
Qed.

(** C7. The counter starts above every seed id.  After every sequence of
    operations from the seeded state the ids of the collection are pairwise
    distinct, and the id that the next insert assigns is in no collection
    the run has gone through (the state after any prefix [ops1] of the
    sequence), the current one included: the counter never decreases. *)
Theorem ids_never_reused :
  ∃ st0 ts0,
    mount = Some st0
    ∧ contents st0 = Some ts0
    ∧ Forall (λ t, id t < nextId st0) ts0
    ∧ ∀ ops1 ops2 text,
        ∃ s1 s2 s3 ts1 ts2,
          run ops1 st0 = Some s1
          ∧ contents s1 = Some ts1
          ∧ run (ops1 ++ ops2) st0 = Some s2
          ∧ contents s2 = Some ts2
          ∧ NoDup (id <$> ts2)
          ∧ nextId s1 ≤ nextId s2
          ∧ onInsert text s2 = Some s3
          ∧ contents s3
            = Some (ts2 ++ [{| id := nextId s2; text := text; checked := false |}])
          ∧ (nextId s2 ∉ id <$> ts1)
          ∧ (nextId s2 ∉ id <$> ts2)
          ∧ nextId s2 < nextId s3.
Proof.
  pose proof (seeded_ids_fresh 25000 25001 eq_refl) as Hf0.
  eexists _, _. split; [apply mount_seeded|].
  split; [apply seeded_contents|]. split; [apply Hf0|].
  intros ops1 ops2 text.
  destruct (run_invariant ops1 (seeded 25000 25001) _ (seeded_contents _ _) Hf0)
    as (s1 & ts1 & Hrun1 & Hc1 & Hf1 & _ & _).
  destruct (run_invariant ops2 s1 ts1 Hc1 Hf1)
    as (s2 & ts2 & Hrun2 & Hc2 & Hf2 & Hn2 & _).
  destruct (onInsert_contents s2 ts2 text Hc2) as (s3 & Hs3 & Hc3 & Hn3 & _).
  exists s1, s2, s3, ts1, ts2.
  split; [done|]. split; [done|].
  split; [by rewrite run_app, Hrun1|]. split; [done|].
  split; [apply Hf2|]. split; [lia|]. split; [done|]. split; [done|].
  assert (∀ n ts, Forall (λ t, id t < n) ts → ∀ m, n ≤ m → m ∉ id <$> ts) as Hout.
  { intros n ts Hlt m Hm (t & -> & Hin)%list_elem_of_fmap.
    rewrite Forall_forall in Hlt. apply Hlt in Hin. lia. }
  split; [apply (Hout _ _ (proj2 Hf1)); lia|].
  split; [apply (Hout _ _ (proj2 Hf2)); lia|]. lia.
Qed.

(** The scenario of three inserts, a remove and a toggle, from any
    well-formed state whose ids are below the counter. *)
Lemma scenario st ts n a b c :
  contents st = Some ts →
  nextId st = n →
  Forall (λ t, id t < n) ts →
  ∃ st3 st5,
    run [Insert a; Insert b; Insert c] st = Some st3
    ∧ contents st3
      = Some (ts ++ [{| id := n; text := a; checked := false |};
                     {| id := n + 1; text := b; checked := false |};
                     {| id := n + 2; text := c; checked := false |}])
    ∧ run [Remove (n + 1); Toggle (n + 2)] st3 = Some st5
    ∧ contents st5
      = Some (ts ++ [{| id := n; text := a; checked := false |};
                     {| id := n + 2; text := c; checked := true |}]).
Proof.
  intros Hc Hn Hlt.
  assert (∀ m, n ≤ m → m ∉ id <$> ts) as Hout.
  { intros m Hm (t & -> & Hin)%list_elem_of_fmap.
    rewrite Forall_forall in Hlt. apply Hlt in Hin. lia. }
  destruct (onInsert_contents st ts a Hc) as (st1 & Hst1 & Hc1 & Hn1 & _).
  rewrite Hn in Hc1, Hn1.
  destruct (onInsert_contents st1 _ b Hc1) as (st2 & Hst2 & Hc2 & Hn2 & _).
  rewrite Hn1 in Hc2, Hn2.
  destruct (onInsert_contents st2 _ c Hc2) as (st3 & Hst3 & Hc3 & Hn3 & _).
  rewrite Hn2 in Hc3. unfold inserted in Hc3.
  rewrite <- !app_assoc in Hc3. simpl in Hc3.
  replace (n + 1 + 1) with (n + 2) in Hc3 by lia.
  destruct (onRemove_contents st3 _ (n + 1) Hc3) as (st4 & Hst4 & Hc4 & _).
  destruct (onToggle_contents st4 _ (n + 2) Hc4) as (st5 & Hst5 & Hc5 & _).
  exists st3, st5. simpl. rewrite Hst1. simpl. rewrite Hst2. simpl.
  rewrite Hst3, Hst4. simpl. rewrite Hst5. simpl.
  split; [done|]. split; [done|]. split; [done|].
  rewrite Hc5. f_equal. unfold toggled, removed.
  rewrite filter_app, fmap_app. f_equal.
  - fold (removed (n + 1) ts). rewrite removed_absent by (apply Hout; lia).
    fold (toggled (n + 2) ts). apply toggled_absent, Hout. lia.
  - rewrite filter_cons_True by (simpl; lia).
    rewrite filter_cons_False by (simpl; lia).
    rewrite filter_cons_True by (simpl; lia).
    rewrite filter_nil. simpl.
    rewrite decide_False by lia. by rewrite decide_True.
Qed.

(** C9, as the code has it.  From the seeded state the three inserts assign
    the ids 25001, 25002 and 25003; removing 25002 and toggling 25003 then
    leaves the seed entries followed by [{25001,"a",false}] and
    [{25003,"c",true}]. *)
Theorem scenario_from_seed :
  ∃ st0 ts0 st3 st5,
    mount = Some st0
    ∧ contents st0 = Some ts0
    ∧ run [Insert "a"; Insert "b"; Insert "c"] st0 = Some st3
    ∧ contents st3
      = Some (ts0 ++ [{| id := 25001; text := "a"; checked := false |};
                      {| id := 25002; text := "b"; checked := false |};
                      {| id := 25003; text := "c"; checked := false |}])
    ∧ run [Remove 25002; Toggle 25003] st3 = Some st5
    ∧ contents st5
      = Some (ts0 ++ [{| id := 25001; text := "a"; checked := false |};
                      {| id := 25003; text := "c"; checked := true |}]).
Proof.
  destruct (scenario (seeded 25000 25001) _ 25001 "a" "b" "c"
              (seeded_contents _ _) eq_refl)
    as (st3 & st5 & H3 & Hc3 & H5 & Hc5).
  { apply (seeded_ids_fresh 25000 25001 eq_refl). }
  eexists _, _, st3, st5. split; [apply mount_seeded|].
  split; [apply seeded_contents|].
  exact (conj H3 (conj Hc3 (conj H5 Hc5))).
Qed.

(** C9 as stated fails: the counter of the program starts at 25001, not at
    0, and after the five operations the collection is not the two entries
    [{0,"a",false}], [{2,"c",true}]. *)
Lemma scenario_from_zero_fails :
  ∃ st0 st ts,
    mount = Some st0
    ∧ nextId st0 = 25001
    ∧ run [Insert "a"; Insert "b"; Insert "c"; Remove 1; Toggle 2] st0 = Some st
    ∧ contents st = Some ts
    ∧ ts ≠ [{| id := 0; text := "a"; checked := false |};
            {| id := 2; text := "c"; checked := true |}].
Proof.
  set (ops := [Insert "a"; Insert "b"; Insert "c"; Remove 1; Toggle 2]).
  destruct (seeded_run_length 25000 25001 ops eq_refl) as (st & ts & Hrun & Hc & Hlen).
  pose proof (removes_of_existing_ids_le ops (seeded 25000 25001)) as Hle.
  exists (seeded 25000 25001), st, ts.
  split; [apply mount_seeded|]. split; [reflexivity|].
  split; [exact Hrun|]. split; [exact Hc|].
  intros ->.
  set (r := removes_of_existing_ids _ _) in *. clearbody r.
  change (length ops) with 5%nat in Hle.
  change (Z.of_nat (inserts ops)) with 3%Z in Hlen.
  change (Z.of_N (N.succ 25000)) with 25001%Z in Hlen.
  simpl in Hlen. lia.
Qed.

(** ** The handles across renders *)

Lemma contents_with_heap st ts h :
  contents st = Some ts →
  st_heap st `prefix_of` h →
  contents (with_heap h st) = Some ts.
Proof.
  intros (l & Hl%refs_Some & Hts)%contents_Some Hp.
  apply contents_Some. exists l. split.
  - apply refs_Some. simpl. by eapply prefix_lookup_Some.
  - simpl. eauto with heap.
Qed.

Lemma App_first st0 :
  mount = Some st0 →
  App None =
    Some ({| cells := with_heap (st_heap st0 ++ closures (todos st0)) st0;
             cb_onInsert := {| m_fn := length (st_heap st0); m_deps := [] |};
             cb_onRemove := {| m_fn := S (length (st_heap st0)); m_deps := [] |};
             cb_onToggle := {| m_fn := S (S (length (st_heap st0))); m_deps := [] |} |},
          {| p_todos := todos st0;
             p_onInsert := length (st_heap st0);
             p_onRemove := S (length (st_heap st0));
             p_onToggle := S (S (length (st_heap st0))) |}).
Proof.
  intros Hm. unfold App. rewrite Hm. unfold new_obj. simpl.
  rewrite !length_app. simpl. rewrite !Nat.add_1_r, <- !app_assoc. done.
Qed.

Section handles.

(** The props of the first render. *)
Variable p0 : props.

Lemma App_again f :
  fiber_ok p0 f →
  App (Some f) =
    Some ({| cells := with_heap (st_heap (cells f) ++ closures (todos (cells f)))
                                (cells f);
             cb_onInsert := cb_onInsert f;
             cb_onRemove := cb_onRemove f;
             cb_onToggle := cb_onToggle f |},
          {| p_todos := todos (cells f);
             p_onInsert := p_onInsert p0;
             p_onRemove := p_onRemove p0;
             p_onToggle := p_onToggle p0 |}).
Proof.
  intros [Hi Hr Ht _ _ _]. unfold App, new_obj. simpl.
  rewrite Hi, Hr, Ht. simpl. rewrite <- !app_assoc. done.
Qed.

Lemma call_current f e :
  fiber_ok p0 f →
  call (handle_for p0 e) e f = (λ s, with_cells s f) <$> step e (cells f).
Proof.
  intros [_ _ _ Hi Hr Ht]. unfold call.
  destruct e as [text|i|i]; simpl; rewrite ?Hi, ?Hr, ?Ht.
  - by destruct (onInsert text (cells f)).
  - by destruct (onRemove i (cells f)).
  - by destruct (onToggle i (cells f)).
Qed.

Lemma fiber_ok_extend f st h :
  fiber_ok p0 f →
  st_heap (cells f) `prefix_of` h →
  st_heap st = h →
  fiber_ok p0 {| cells := st; cb_onInsert := cb_onInsert f;
                 cb_onRemove := cb_onRemove f; cb_onToggle := cb_onToggle f |}.
Proof.
  intros [Hi Hr Ht Hfi Hfr Hft] Hp <-.
  split; simpl; try done; by eapply prefix_lookup_Some.
Qed.

Lemma drive_from_first es : ∀ f p st ts,
  fiber_ok p0 f →
  contents (cells f) = Some ts →
  contents st = Some ts →
  nextId (cells f) = nextId st →
  p_todos p = todos (cells f) →
  p_onInsert p = p_onInsert p0 →
  p_onRemove p = p_onRemove p0 →
  p_onToggle p = p_onToggle p0 →
  ∃ f' p' st' ts',
    drive p0 es f p = Some (f', p')
    ∧ run es st = Some st'
    ∧ fiber_ok p0 f'
    ∧ contents (cells f') = Some ts'
    ∧ contents st' = Some ts'
    ∧ nextId (cells f') = nextId st'
    ∧ p_onInsert p' = p_onInsert p0
    ∧ p_onRemove p' = p_onRemove p0
    ∧ p_onToggle p' = p_onToggle p0
    ∧ (p_todos p + length es ≤ p_todos p')%nat.
Proof.
  induction es as [|e es IH]; intros f p st ts Hok Hcf Hcs Hn Hpt Hpi Hpr Hptg.
  - exists f, p, st, ts. simpl. repeat (split; [done|]). lia.
  - destruct (step_contents e (cells f) ts Hcf) as (s1 & Hs1 & Hc1 & Hn1 & Hp1 & Hlt1).
    destruct (step_contents e st ts Hcs) as (s2 & Hs2 & Hc2 & Hn2 & _).
    set (f1 := with_cells s1 f).
    assert (fiber_ok p0 f1) as Hok1 by by eapply fiber_ok_extend.
    set (f2 := {| cells := with_heap (st_heap s1 ++ closures (todos s1)) s1;
                  cb_onInsert := cb_onInsert f1;
                  cb_onRemove := cb_onRemove f1;
                  cb_onToggle := cb_onToggle f1 |}).
    assert (fiber_ok p0 f2) as Hok2.
    { eapply fiber_ok_extend; [done| |done]. by apply prefix_app_r. }
    assert (contents (cells f2) = Some (applied e (nextId (cells f)) ts)) as Hcf2.
    { simpl. apply contents_with_heap; [done | by apply prefix_app_r]. }
    rewrite <- Hn in Hc2, Hn2.
    assert (nextId (cells f2) = nextId s2) as Hn12 by (simpl; congruence).
    destruct (IH f2 {| p_todos := todos s1; p_onInsert := p_onInsert p0;
                       p_onRemove := p_onRemove p0; p_onToggle := p_onToggle p0 |}
                 s2 _ Hok2 Hcf2 Hc2 Hn12 eq_refl eq_refl eq_refl eq_refl)
      as (f' & p' & st' & ts' & Hd & Hr & Hrest).
    exists f', p', st', ts'. cbn [drive run].
    rewrite (call_current f e Hok), Hs1, Hs2.
    cbn [fmap option_fmap option_map mbind option_bind].
    fold f1. rewrite (App_again f1 Hok1).
    cbn [mbind option_bind].
    split; [exact Hd|]. split; [exact Hr|].
    destruct Hrest as (? & ? & ? & ? & ? & ? & ? & Hlen).
    repeat (split; [done|]). rewrite Hpt. simpl length. simpl in Hlen. lia.
Qed.

End handles.

Lemma first_fiber_ok st0 : fiber_ok (first_props st0) (first_fiber st0).
Proof.
  split; simpl; try done; rewrite lookup_app_r by lia.
  - by rewrite Nat.sub_diag.
  - by replace (S (length (st_heap st0)) - length (st_heap st0))%nat
      with 1%nat by lia.
  - by replace (S (S (length (st_heap st0))) - length (st_heap st0))%nat
      with 2%nat by lia.
Qed.

(** A run reads back as the operations on the entries alone. *)
Lemma run_applied_all ops : ∀ st ts,
  contents st = Some ts →
  ∃ st',
    run ops st = Some st'
    ∧ contents st' = Some (applied_all ops (nextId st) ts)
    ∧ nextId st' = nextId st + N.of_nat (inserts ops).
Proof.
  induction ops as [|o ops IH]; intros st ts Hc.
  - exists st. unfold inserts. simpl. repeat split; try done. lia.
  - destruct (step_contents o st ts Hc) as (st1 & Hst1 & Hc1 & Hn1 & _).
    destruct (IH st1 _ Hc1) as (st' & Hrun & Hc' & Hn').
    exists st'. cbn [run applied_all]. rewrite Hst1. cbn [mbind option_bind].
    rewrite <- Hn1. split; [done|]. split; [done|].
    rewrite Hn', Hn1. unfold inserts. simpl. destruct (is_insert o); simpl; lia.
Qed.

Lemma drive_first st0 ts0 es :
  contents st0 = Some ts0 →
  ∃ f p st,
    drive (first_props st0) es (first_fiber st0) (first_props st0) = Some (f, p)
    ∧ p_onInsert p = p_onInsert (first_props st0)
    ∧ p_onRemove p = p_onRemove (first_props st0)
    ∧ p_onToggle p = p_onToggle (first_props st0)
    ∧ (es ≠ [] → p_todos p ≠ p_todos (first_props st0))
    ∧ st_heap (cells f) !! p_onInsert (first_props st0)
      = Some (OFun InsertFn (p_todos (first_props st0)))
    ∧ st_heap (cells f) !! p_onRemove (first_props st0)
      = Some (OFun RemoveFn (p_todos (first_props st0)))
    ∧ st_heap (cells f) !! p_onToggle (first_props st0)
      = Some (OFun ToggleFn (p_todos (first_props st0)))
    ∧ run es st0 = Some st
    ∧ contents (cells f) = contents st
    ∧ nextId (cells f) = nextId st
    ∧ contents (cells f) = Some (applied_all es (nextId st0) ts0)
    ∧ nextId (cells f) = nextId st0 + N.of_nat (inserts es)
    ∧ ∀ e, ∃ f',
        call (handle_for (first_props st0) e) e f = Some f'
        ∧ contents (cells f')
          = Some (applied e (nextId (cells f)) (applied_all es (nextId st0) ts0)).
Proof.
  intros Hc0.
  pose proof (first_fiber_ok st0) as Hok0.
  assert (contents (cells (first_fiber st0)) = Some ts0) as Hcf0.
  { apply contents_with_heap; [exact Hc0 | by apply prefix_app_r]. }
  destruct (drive_from_first (first_props st0) es (first_fiber st0) (first_props st0)
              st0 _ Hok0 Hcf0 Hc0 eq_refl eq_refl eq_refl eq_refl eq_refl)
    as (f & p & st & ts & Hd & Hr & Hok & Hcf & Hcs & Hn & Hi & Hrm & Ht & Hlen).
  destruct (run_applied_all es st0 ts0 Hc0) as (st_ & Hr_ & Hca & Hna).
  rewrite Hr in Hr_. injection Hr_ as <-.
  exists f, p, st. split; [exact Hd|].
  pose proof Hok as [_ _ _ Hfi Hfr Hft].
  split; [exact Hi|]. split; [exact Hrm|]. split; [exact Ht|].
  split.
  { intros Hne Heq. destruct es; [done|]. rewrite Heq in Hlen.
    simpl length in Hlen. lia. }
  split; [exact Hfi|]. split; [exact Hfr|]. split; [exact Hft|].
  split; [exact Hr|].
  split; [by rewrite Hcf, Hcs|]. split; [exact Hn|].
  assert (contents (cells f) = Some (applied_all es (nextId st0) ts0)) as Hcfa
    by (by rewrite Hcf, <- Hcs).
  split; [exact Hcfa|]. split; [by rewrite Hn|].
  intros e. rewrite (call_current _ f e Hok).
  destruct (step_contents e (cells f) _ Hcfa) as (s' & Hs' & Hc' & _).
  exists (with_cells s' f). rewrite Hs'. split; [done|]. exact Hc'.
Qed.

Lemma App_first_props st0 :
  mount = Some st0 → App None = Some (first_fiber st0, first_props st0).
Proof. apply App_first. Qed.

(** C8.  Let [p0] be the props of the first render and [ts0] the seed
    entries.  After every sequence of events [es], each sent through the
    handles of [p0] and followed by a render: the props of the last render
    carry the same three function references as [p0], although [todos] has
    been replaced by another array whenever there was an event; the
    function objects are still the ones closed over the first array; the
    collection reads back as [ts0] with the operations of [es] applied to
    it one after the other (the same as the handlers run in sequence), not
    as the first array; and one more call through a handle of [p0] returns,
    with the operation applied to that latest content. *)
Theorem handles_fixed_and_current :
  ∃ f0 p0 st0 ts0,
    App None = Some (f0, p0)
    ∧ mount = Some st0
    ∧ contents st0 = Some ts0
    ∧ ∀ es,
        ∃ f p st,
          drive p0 es f0 p0 = Some (f, p)
          ∧ p_onInsert p = p_onInsert p0
          ∧ p_onRemove p = p_onRemove p0
          ∧ p_onToggle p = p_onToggle p0
          ∧ (es ≠ [] → p_todos p ≠ p_todos p0)
          ∧ st_heap (cells f) !! p_onInsert p0 = Some (OFun InsertFn (p_todos p0))
          ∧ st_heap (cells f) !! p_onRemove p0 = Some (OFun RemoveFn (p_todos p0))
          ∧ st_heap (cells f) !! p_onToggle p0 = Some (OFun ToggleFn (p_todos p0))
          ∧ run es st0 = Some st
          ∧ contents (cells f) = contents st
          ∧ nextId (cells f) = nextId st
          ∧ contents (cells f) = Some (applied_all es 25001 ts0)
          ∧ nextId (cells f) = 25001 + N.of_nat (inserts es)
          ∧ ∀ e, ∃ f',
              call (handle_for p0 e) e f = Some f'
              ∧ contents (cells f')
                = Some (applied e (nextId (cells f)) (applied_all es 25001 ts0)).
Proof.
  exists (first_fiber (seeded 25000 25001)), (first_props (seeded 25000 25001)),
    (seeded 25000 25001),
    ((λ k, seed_todo (N.of_nat k)) <$> seq 0 (N.to_nat (N.succ 25000))).
  split; [apply App_first_props, mount_seeded|].
  split; [apply mount_seeded|].
  split; [apply seeded_contents|].
  intros es. exact (drive_first _ _ es (seeded_contents 25000 25001)).
Qed.

(** * Further properties of the handlers *)

(** ** The three operations on the entries *)

Lemma removed_removed i j ts : removed i (removed j ts) = removed j (removed i ts).
Proof.
  unfold removed. rewrite !list_filter_filter.
  apply list_filter_iff. intros t. tauto.
Qed.

Lemma removed_idemp i ts : removed i (removed i ts) = removed i ts.
Proof.
  unfold removed. rewrite list_filter_filter.
  apply list_filter_iff. intros t. tauto.
Qed.

Lemma removed_no_id i ts : i ∉ id <$> removed i ts.
Proof.
  intros (t & -> & [Hne _]%list_elem_of_filter)%list_elem_of_fmap. done.
Qed.

Lemma removed_toggled i j ts : removed i (toggled j ts) = toggled j (removed i ts).
Proof.
  unfold removed, toggled. induction ts as [|t ts IH]; [done|].
  rewrite fmap_cons. destruct (decide (id t = i)) as [Heq|Hne].
  - rewrite !filter_cons_False; [done | naive_solver |].
    destruct (decide (id t = j)); naive_solver.
  - rewrite !filter_cons_True; [|done|].
    + by rewrite fmap_cons, IH.
    + by destruct (decide (id t = j)).
Qed.

Lemma toggled_toggled i j ts : toggled i (toggled j ts) = toggled j (toggled i ts).
Proof.
  unfold toggled. rewrite <- !list_fmap_compose. apply list_fmap_ext.
  intros _ t _. simpl.
  destruct (decide (id t = j)), (decide (id t = i)); simpl;
    repeat case_decide; done.
Qed.

Lemma inserted_removed n text i ts :
  i ≠ n → removed i (inserted n text ts) = inserted n text (removed i ts).
Proof.
  intros Hne. unfold removed, inserted. rewrite filter_app. f_equal.
  by rewrite filter_cons_True by (simpl; done).
Qed.

Lemma inserted_toggled n text i ts :
  i ≠ n → toggled i (inserted n text ts) = inserted n text (toggled i ts).
Proof.
  intros Hne. unfold toggled, inserted. rewrite fmap_app. f_equal.
  simpl. by rewrite decide_False by done.
Qed.

Lemma removed_inserted_new n text ts :
  n ∉ id <$> ts → removed n (inserted n text ts) = ts.
Proof.
  intros Hn. unfold inserted. unfold removed. rewrite filter_app.
  fold (removed n ts). rewrite removed_absent by done.
  rewrite filter_cons_False by (simpl; naive_solver). by rewrite app_nil_r.
Qed.

Lemma applied_comm o1 o2 n ts :
  is_insert o1 = false → is_insert o2 = false →
  applied o1 n (applied o2 n ts) = applied o2 n (applied o1 n ts).
Proof.
  destruct o1 as [?|i|i], o2 as [?|j|j]; try done; intros _ _; simpl.
  - apply removed_removed.
  - apply removed_toggled.
  - symmetry. apply removed_toggled.
  - apply toggled_toggled.
Qed.

(** ** Removing *)



(** X2. After [onRemove i] no entry has the id [i], however many had it,
    and a second [onRemove i] changes nothing in the content. *)
Theorem onRemove_idempotent st ts i :
  contents st = Some ts →
  ∃ st1 st2 ts1,
    onRemove i st = Some st1
    ∧ contents st1 = Some ts1
    ∧ (i ∉ id <$> ts1)
    ∧ onRemove i st1 = Some st2
    ∧ contents st2 = Some ts1.
Proof.
  intros Hc.
  destruct (onRemove_contents st ts i Hc) as (st1 & Hst1 & Hc1 & _).
  destruct (onRemove_contents st1 _ i Hc1) as (st2 & Hst2 & Hc2 & _).
  exists st1, st2, (removed i ts). split; [done|]. split; [done|].
  split; [apply removed_no_id|]. split; [done|].
  by rewrite Hc2, removed_idemp.
Qed.

Lemma onRemove_idempotent_witness :
  ∃ st1 st2 ts1,
    onRemove 1 twins = Some st1
    ∧ contents st1 = Some ts1
    ∧ (1 ∉ id <$> ts1)
    ∧ onRemove 1 st1 = Some st2
    ∧ contents st2 = Some ts1.
Proof.
  apply (onRemove_idempotent twins
           [{| id := 1; text := "a"; checked := false |};
            {| id := 2; text := "b"; checked := false |};
            {| id := 1; text := "c"; checked := true |}] 1).
  reflexivity.
Defined.

(** ** How the operations compose *)

(** X3. Two operations that are not inserts can be done in either order:
    the collection has the same content afterwards, also when both name the
    same id. *)
Theorem edits_commute st ts o1 o2 :
  contents st = Some ts →
  is_insert o1 = false →
  is_insert o2 = false →
  ∃ s12 s21 ts',
    run [o1; o2] st = Some s12
    ∧ run [o2; o1] st = Some s21
    ∧ contents s12 = Some ts'
    ∧ contents s21 = Some ts'.
Proof.
  intros Hc H1 H2.
  destruct (step_contents o1 st ts Hc) as (a1 & Ha1 & Hca1 & Hna1 & _).
  destruct (step_contents o2 a1 _ Hca1) as (a2 & Ha2 & Hca2 & _).
  destruct (step_contents o2 st ts Hc) as (b1 & Hb1 & Hcb1 & Hnb1 & _).
  destruct (step_contents o1 b1 _ Hcb1) as (b2 & Hb2 & Hcb2 & _).
  rewrite H1 in Hna1. rewrite H2 in Hnb1. rewrite Hna1 in Hca2. rewrite Hnb1 in Hcb2.
  exists a2, b2, (applied o2 (nextId st) (applied o1 (nextId st) ts)).
  cbn [run]. rewrite Ha1, Hb1. cbn [mbind option_bind]. rewrite Ha2, Hb2.
  cbn [mbind option_bind].
  split; [done|]. split; [done|]. split; [done|].
  by rewrite Hcb2, applied_comm.
Qed.

Lemma edits_commute_witness :
  ∃ s12 s21 ts',
    run [Remove 1; Toggle 1] small = Some s12
    ∧ run [Toggle 1; Remove 1] small = Some s21
    ∧ contents s12 = Some ts'
    ∧ contents s21 = Some ts'.
Proof.
  apply (edits_commute small [seed_todo 0; seed_todo 1; seed_todo 2]
           (Remove 1) (Toggle 1)); reflexivity.
Defined.

(** X4. An insert and an operation on an id other than the one the insert
    assigns can be done in either order: same content, same counter. *)
Theorem insert_commutes st ts text o i :
  contents st = Some ts →
  target o = Some i →
  i ≠ nextId st →
  ∃ s12 s21 ts',
    run [Insert text; o] st = Some s12
    ∧ run [o; Insert text] st = Some s21
    ∧ contents s12 = Some ts'
    ∧ contents s21 = Some ts'
    ∧ nextId s12 = nextId s21.
Proof.
  intros Hc Ho Hne.
  assert (is_insert o = false) as Hni by (by destruct o).
  destruct (onInsert_contents st ts text Hc) as (a1 & Ha1 & Hca1 & Hna1 & _).
  destruct (step_contents o a1 _ Hca1) as (a2 & Ha2 & Hca2 & Hna2 & _).
  destruct (step_contents o st ts Hc) as (b1 & Hb1 & Hcb1 & Hnb1 & _).
  destruct (onInsert_contents b1 _ text Hcb1) as (b2 & Hb2 & Hcb2 & Hnb2 & _).
  rewrite Hni in Hna2, Hnb1. rewrite Hnb1 in Hcb2.
  exists a2, b2, (applied o (nextId a1) (inserted (nextId st) text ts)).
  cbn [run step]. rewrite Ha1, Hb1. cbn [mbind option_bind]. rewrite Ha2, Hb2.
  cbn [mbind option_bind].
  split; [done|]. split; [done|]. split; [done|].
  split; [|congruence].
  rewrite Hcb2. f_equal.
  destruct o as [?|j|j]; try done; injection Ho as ->; simpl.
  - by rewrite inserted_removed.
  - by rewrite inserted_toggled.
Qed.

Lemma insert_commutes_witness :
  ∃ s12 s21 ts',
    run [Insert "a"; Toggle 1] small = Some s12
    ∧ run [Toggle 1; Insert "a"] small = Some s21
    ∧ contents s12 = Some ts'
    ∧ contents s21 = Some ts'
    ∧ nextId s12 = nextId s21.
Proof.
  apply (insert_commutes small [seed_todo 0; seed_todo 1; seed_todo 2]
           "a" (Toggle 1) 1); [reflexivity | reflexivity | discriminate].
Defined.

(** X5. Removing the entry that was just inserted gives back the content
    from before the insert, provided no entry already had the id of the
    counter; the counter, when below 2^53, does not go back. *)
Theorem insert_then_remove st ts text :
  contents st = Some ts →
  nextId st ∉ id <$> ts →
  nextId st < exact_below →
  ∃ s1 s2,
    onInsert text st = Some s1
    ∧ onRemove (nextId st) s1 = Some s2
    ∧ contents s2 = Some ts
    ∧ nextId s2 = nextId st + 1.
Proof.
  intros Hc Hn _.
  destruct (onInsert_contents st ts text Hc) as (s1 & Hs1 & Hc1 & Hn1 & _).
  destruct (onRemove_contents s1 _ (nextId st) Hc1) as (s2 & Hs2 & Hc2 & Hn2 & _).
  exists s1, s2. split; [done|]. split; [done|].
  split; [by rewrite Hc2, removed_inserted_new | congruence].
Qed.

Lemma insert_then_remove_witness :
  ∃ s1 s2,
    onInsert "a" small = Some s1
    ∧ onRemove (nextId small) s1 = Some s2
    ∧ contents s2 = Some [seed_todo 0; seed_todo 1; seed_todo 2]
    ∧ nextId s2 = nextId small + 1.
Proof.
  apply (insert_then_remove small _ "a"); [reflexivity | | reflexivity].
  apply (bool_decide_unpack _). vm_compute. exact I.
Defined.

(** ** What a run keeps *)

(** Every run from a well-formed state ends in a well-formed state; it only
    allocates, and the counter grows by the number of inserts. *)
Lemma run_total ops : ∀ st ts,
  contents st = Some ts →
  ∃ st' ts',
    run ops st = Some st'
    ∧ contents st' = Some ts'
    ∧ nextId st' = nextId st + N.of_nat (inserts ops)
    ∧ st_heap st `prefix_of` st_heap st'.
Proof.
  induction ops as [|o ops IH]; intros st ts Hc.
  - exists st, ts. unfold inserts. simpl. repeat split; try done. lia.
  - destruct (step_contents o st ts Hc) as (st1 & Hst1 & Hc1 & Hn1 & Hp1 & _).
    destruct (IH st1 _ Hc1) as (st' & ts' & Hrun & Hc' & Hn' & Hp').
    exists st', ts'. cbn [run]. rewrite Hst1. cbn [mbind option_bind].
    split; [done|]. split; [done|]. split; [|by etrans].
    rewrite Hn', Hn1. unfold inserts. simpl. destruct (is_insert o); simpl; lia.
Qed.

(** X6. Over any sequence of operations that keeps the counter within
    2^53 the counter grows by exactly the number of inserts: removes and
    toggles never touch it, and a remove does not hand an id back. *)
Theorem counter_counts_inserts st ts ops :
  contents st = Some ts →
  nextId st + N.of_nat (inserts ops) ≤ exact_below →
  ∃ st', run ops st = Some st' ∧ nextId st' = nextId st + N.of_nat (inserts ops).
Proof.
  intros Hc _. destruct (run_total ops st ts Hc) as (st' & _ & Hrun & _ & Hn & _).
  by exists st'.
Qed.

Lemma counter_counts_inserts_witness :
  ∃ st',
    run [Insert "a"; Remove 3; Toggle 0; Insert "b"] small = Some st'
    ∧ nextId st' = nextId small
                   + N.of_nat (inserts [Insert "a"; Remove 3; Toggle 0; Insert "b"]).
Proof.
  apply (counter_counts_inserts small [seed_todo 0; seed_todo 1; seed_todo 2]).
  - reflexivity.
  - vm_compute. discriminate.
Defined.

(** X7. No operation changes an object that exists: after any sequence of
    operations every reference of the old heap holds what it held, and the
    array that was the collection before still reads back the content it
    had. *)
Theorem snapshots_persist st ts ops :
  contents st = Some ts →
  ∃ st',
    run ops st = Some st'
    ∧ (∀ r o, st_heap st !! r = Some o → st_heap st' !! r = Some o)
    ∧ contents {| st_heap := st_heap st'; todos := todos st; nextId := nextId st |}
      = Some ts.
Proof.
  intros Hc. destruct (run_total ops st ts Hc) as (st' & _ & Hrun & _ & _ & Hp).
  exists st'. split; [done|]. split.
  - intros r o Hr. by eapply prefix_lookup_Some.
  - by apply (contents_with_heap st ts (st_heap st')).
Qed.

Lemma snapshots_persist_witness :
  ∃ st',
    run [Toggle 1; Remove 0; Insert "a"] small = Some st'
    ∧ (∀ r o, st_heap small !! r = Some o → st_heap st' !! r = Some o)
    ∧ contents {| st_heap := st_heap st'; todos := todos small;
                  nextId := nextId small |}
      = Some [seed_todo 0; seed_todo 1; seed_todo 2].
Proof. apply (snapshots_persist small). reflexivity. Defined.

Lemma applied_below o n ts :
  Forall (λ t, id t < n) ts →
  Forall (λ t, id t < (if is_insert o then n + 1 else n)) (applied o n ts).
Proof.
  intros Hlt. destruct o as [text|i|i]; simpl.
  - apply Forall_app. split.
    + eapply Forall_impl; [done|]. intros t Ht. simpl in Ht. lia.
    + constructor; [simpl; lia | constructor].
  - rewrite Forall_forall in Hlt. apply Forall_forall.
    intros t [_ Ht]%list_elem_of_filter. by apply Hlt.
  - unfold toggled. apply Forall_fmap. eapply Forall_impl; [done|].
    intros t Ht. simpl. by destruct (decide (id t = i)).
Qed.

Lemma toggles_of_cons k o ops :
  toggles_of k (o :: ops)
  = ((if decide (o = Toggle k) then 1 else 0) + toggles_of k ops)%nat.
Proof.
  unfold toggles_of. destruct o as [text|i|i]; cbn [List.filter].
  - by rewrite decide_False.
  - by rewrite decide_False.
  - destruct (N.eqb_spec i k) as [->|Hne].
    + by rewrite decide_True.
    + rewrite decide_False; [done | congruence].
Qed.

(** Where the entries of the result of a run come from. *)
Lemma run_entries ops : ∀ st ts,
  contents st = Some ts →
  Forall (λ t, id t < nextId st) ts →
  ∃ st' ts',
    run ops st = Some st'
    ∧ contents st' = Some ts'
    ∧ nextId st ≤ nextId st'
    ∧ ∀ e, e ∈ ts' →
        (id e < nextId st
         ∧ ∃ t, t ∈ ts ∧ id t = id e ∧ text t = text e
                ∧ checked e = xorb (checked t) (Nat.odd (toggles_of (id e) ops)))
        ∨ (nextId st ≤ id e ∧ id e < nextId st' ∧ Insert (text e) ∈ ops).
Proof.
  induction ops as [|o ops IH]; intros st ts Hc Hlt.
  - exists st, ts. split; [done|]. split; [done|]. split; [lia|].
    intros e He. left. rewrite Forall_forall in Hlt. split; [by apply Hlt|].
    exists e. repeat split; try done. simpl. by destruct (checked e).
  - destruct (step_contents o st ts Hc) as (st1 & Hst1 & Hc1 & Hn1 & _).
    pose proof (applied_below o _ _ Hlt) as Hlt1. rewrite <- Hn1 in Hlt1.
    destruct (IH st1 _ Hc1 Hlt1) as (st' & ts' & Hrun & Hc' & Hle & Hall).
    assert (nextId st ≤ nextId st1) as Hle1 by (destruct (is_insert o); lia).
    exists st', ts'. cbn [run]. rewrite Hst1. cbn [mbind option_bind].
    split; [done|]. split; [done|]. split; [lia|].
    intros e He. destruct (Hall e He) as [(Hlow & t1 & Ht1 & Hid & Htx & Hch)|(Hge & Hlt' & Hin)].
    2:{ right. split; [lia|]. split; [done|]. by apply list_elem_of_further. }
    rewrite Forall_forall in Hlt.
    destruct o as [tx|i|i]; simpl in Ht1, Hn1.
    + unfold inserted in Ht1. apply elem_of_app in Ht1 as [Ht1|Ht1%list_elem_of_singleton].
      * left. split; [rewrite <- Hid; by apply Hlt|].
        exists t1. by rewrite toggles_of_cons, decide_False.
      * subst t1. simpl in Hid, Htx. right. split; [lia|]. split; [lia|].
        rewrite <- Htx. apply list_elem_of_here.
    + apply list_elem_of_filter in Ht1 as [_ Ht1].
      left. split; [rewrite <- Hid; by apply Hlt|].
      exists t1. by rewrite toggles_of_cons, decide_False.
    + unfold toggled in Ht1. apply list_elem_of_fmap in Ht1 as (t & -> & Ht).
      left. split.
      { rewrite <- Hid. destruct (decide (id t = i)); simpl; by apply Hlt. }
      exists t. split; [done|].
      rewrite toggles_of_cons.
      destruct (decide (id t = i)) as [Heq|Hne]; simpl in Hid, Htx, Hch.
      * rewrite decide_True by congruence. split; [done|]. split; [done|].
        rewrite Hch. simpl Nat.add. rewrite Nat.odd_succ, <- Nat.negb_odd.
        by destruct (checked t), (Nat.odd _).
      * rewrite decide_False by congruence. done.
Qed.

(** X8. No operation edits the id or the text of an entry.  From a state
    whose ids are below the counter, every entry of the result with an id
    below the old counter is an entry of the input with the same id and the
    same text, and its [checked] is the old one negated once per [Toggle] of
    its id in the sequence. *)
Theorem entries_keep_id_and_text st ts ops :
  contents st = Some ts →
  Forall (λ t, id t < nextId st) ts →
  ∃ st' ts',
    run ops st = Some st'
    ∧ contents st' = Some ts'
    ∧ ∀ e, e ∈ ts' → id e < nextId st →
        ∃ t, t ∈ ts ∧ id t = id e ∧ text t = text e
             ∧ checked e = xorb (checked t) (Nat.odd (toggles_of (id e) ops)).
Proof.
  intros Hc Hlt.
  destruct (run_entries ops st ts Hc Hlt) as (st' & ts' & Hrun & Hc' & _ & Hall).
  exists st', ts'. split; [done|]. split; [done|].
  intros e He Hlow. destruct (Hall e He) as [[_ Ht]|[Hge _]]; [done | lia].
Qed.

Lemma entries_keep_id_and_text_witness :
  ∃ st' ts',
    run [Toggle 1; Insert "a"; Toggle 1; Toggle 2; Remove 0] small = Some st'
    ∧ contents st' = Some ts'
    ∧ ∀ e, e ∈ ts' → id e < nextId small →
        ∃ t, t ∈ [seed_todo 0; seed_todo 1; seed_todo 2]
             ∧ id t = id e ∧ text t = text e
             ∧ checked e
               = xorb (checked t)
                   (Nat.odd (toggles_of (id e)
                      [Toggle 1; Insert "a"; Toggle 1; Toggle 2; Remove 0])).
Proof.
  apply (entries_keep_id_and_text small); [reflexivity|].
  apply (bool_decide_unpack _). vm_compute. exact I.
Defined.

(** X9. From a state whose ids are below the counter, and over a sequence
    that keeps the counter within 2^53, every entry of the result with an id
    at or above the old counter was put there by an [Insert] of the sequence
    carrying its text, and its id is below the new counter. *)
Theorem new_entries_come_from_inserts st ts ops :
  contents st = Some ts →
  Forall (λ t, id t < nextId st) ts →
  nextId st + N.of_nat (inserts ops) ≤ exact_below →
  ∃ st' ts',
    run ops st = Some st'
    ∧ contents st' = Some ts'
    ∧ ∀ e, e ∈ ts' → nextId st ≤ id e →
        id e < nextId st' ∧ Insert (text e) ∈ ops.
Proof.
  intros Hc Hlt _.
  destruct (run_entries ops st ts Hc Hlt) as (st' & ts' & Hrun & Hc' & _ & Hall).
  exists st', ts'. split; [done|]. split; [done|].
  intros e He Hge. destruct (Hall e He) as [[Hlow _]|(_ & Hlt' & Hin)]; [lia | done].
Qed.

Lemma new_entries_come_from_inserts_witness :
  ∃ st' ts',
    run [Toggle 1; Insert "a"; Remove 0; Insert "b"] small = Some st'
    ∧ contents st' = Some ts'
    ∧ ∀ e, e ∈ ts' → nextId small ≤ id e →
        id e < nextId st'
        ∧ Insert (text e) ∈ [Toggle 1; Insert "a"; Remove 0; Insert "b"].
Proof.
  apply (new_entries_come_from_inserts small [seed_todo 0; seed_todo 1; seed_todo 2]).
  - reflexivity.
  - apply (bool_decide_unpack _). vm_compute. exact I.
  - vm_compute. discriminate.
Defined.

(** ** The order of the ids *)

Lemma sorted_snoc (l : list N) y :
  StronglySorted N.lt l → Forall (λ x, x < y) l → StronglySorted N.lt (l ++ [y]).
Proof.
  induction 1 as [|x l Hs IH Hx]; intros Hy; simpl.
  - repeat constructor.
  - apply Forall_cons in Hy as [Hxy Hy]. constructor; [by apply IH|].
    apply Forall_app. split; [done | by constructor].
Qed.

Lemma removed_sorted i ts :
  StronglySorted N.lt (id <$> ts) → StronglySorted N.lt (id <$> removed i ts).
Proof.
  unfold removed. induction ts as [|t ts IH]; [done|].
  rewrite fmap_cons. intros [Hs Ht]%StronglySorted_inv.
  destruct (decide (id t ≠ i)).
  - rewrite filter_cons_True by done. rewrite fmap_cons.
    constructor; [by apply IH|].
    rewrite Forall_fmap in Ht. apply Forall_fmap.
    rewrite Forall_forall in Ht. apply Forall_forall.
    intros u [_ Hu]%list_elem_of_filter. by apply Ht.
  - rewrite filter_cons_False by done. by apply IH.
Qed.

Lemma applied_sorted o n ts :
  StronglySorted N.lt (id <$> ts) →
  Forall (λ t, id t < n) ts →
  StronglySorted N.lt (id <$> applied o n ts).
Proof.
  intros Hs Hlt. destruct o as [text|i|i]; simpl.
  - unfold inserted. rewrite fmap_app. apply sorted_snoc; [done|].
    by apply Forall_fmap.
  - by apply removed_sorted.
  - by rewrite toggled_ids.
Qed.

Lemma sorted_increasing (l : list N) : StronglySorted N.lt l → increasing l.
Proof.
  induction 1 as [|x l Hs IH Hx]; intros a b u v Hab Ha Hb.
  - by rewrite lookup_nil in Ha.
  - destruct b as [|b]; [lia|]. simpl in Hb. destruct a as [|a]; simpl in Ha.
    + injection Ha as <-. rewrite Forall_forall in Hx.
      apply Hx. by eapply list_elem_of_lookup_2.
    + apply (IH a b); [lia | done | done].
Qed.

Lemma seq_sorted j c : StronglySorted N.lt (N.of_nat <$> seq j c).
Proof.
  revert j. induction c as [|c IH]; intros j; simpl; constructor; [apply IH|].
  apply Forall_fmap, Forall_forall. intros k [Hk _]%elem_of_seq. simpl. lia.
Qed.

Lemma run_sorted ops : ∀ st ts,
  contents st = Some ts →
  StronglySorted N.lt (id <$> ts) →
  Forall (λ t, id t < nextId st) ts →
  ∃ st' ts',
    run ops st = Some st'
    ∧ contents st' = Some ts'
    ∧ StronglySorted N.lt (id <$> ts').
Proof.
  induction ops as [|o ops IH]; intros st ts Hc Hs Hlt.
  - by exists st, ts.
  - destruct (step_contents o st ts Hc) as (st1 & Hst1 & Hc1 & Hn1 & _).
    pose proof (applied_below o _ _ Hlt) as Hlt1. rewrite <- Hn1 in Hlt1.
    destruct (IH st1 _ Hc1 (applied_sorted o _ _ Hs Hlt) Hlt1)
      as (st' & ts' & Hrun & Hc' & Hs').
    exists st', ts'. cbn [run]. rewrite Hst1. by cbn [mbind option_bind].
Qed.

Lemma seeded_run_increasing hi first ops :
  hi < first →
  ∃ st ts,
    run ops (seeded hi first) = Some st
    ∧ contents st = Some ts
    ∧ increasing (id <$> ts).
Proof.
  intros Hlt.
  destruct (run_sorted ops (seeded hi first) _ (seeded_contents _ _))
    as (st & ts & Hrun & Hc & Hs).
  { rewrite seeded_ids. apply seq_sorted. }
  { by apply seeded_ids_fresh. }
  exists st, ts. split; [done|]. split; [done|]. by apply sorted_increasing.
Qed.

(** X10. After every sequence of operations from the seeded state the ids
    grow strictly along the collection: an entry further down always has
    the larger id, so the order of the rows is the order of creation. *)
Theorem ids_stay_increasing :
  ∃ st0,
    mount = Some st0
    ∧ ∀ ops,
        ∃ st ts,
          run ops st0 = Some st
          ∧ contents st = Some ts
          ∧ increasing (id <$> ts).
Proof.
  exists (seeded 25000 25001). split; [apply mount_seeded|].
  intros ops. exact (seeded_run_increasing 25000 25001 ops eq_refl).
Qed.

(** ** [createBulkTodos] on any heap *)

Lemma Array_push_at (h0 : heap) l tl x :
  Array_push (length h0) x (h0 ++ OArray l :: tl)
  = Some (tt, h0 ++ OArray (l ++ [x]) :: tl).
Proof.
  unfold Array_push. rewrite bind_unfold. unfold get_array.
  rewrite list_lookup_middle by done.
  by rewrite insert_app_r_alt, Nat.sub_diag by done.
Qed.

Lemma for_le_push_at hi cnt : ∀ i (h0 : heap) l tl,
  N.to_nat (N.succ hi - i) = cnt →
  for_le i hi (λ i,
    let* todo := new_obj (OTodo {| id := i; text := seed_text i; checked := false |}) in
    Array_push (length h0) todo) (h0 ++ OArray l :: tl)
  = Some (tt, h0 ++ OArray (l ++ seq (length h0 + S (length tl)) cnt)
                :: tl ++ ((λ k, OTodo (seed_todo (i + N.of_nat k))) <$> seq 0 cnt)).
Proof.
  induction cnt as [|c IH]; intros i h0 l tl Hc; rewrite for_le_step.
  - rewrite decide_False by lia. simpl. by rewrite !app_nil_r.
  - rewrite decide_True by lia.
    rewrite bind_unfold, bind_unfold. unfold new_obj at 1.
    rewrite <- app_assoc, <- app_comm_cons, Array_push_at.
    rewrite IH by lia. do 4 f_equal.
    + rewrite <- app_assoc. simpl. rewrite !length_app. simpl.
      do 3 f_equal. f_equal. lia.
    + rewrite <- app_assoc. simpl. do 2 f_equal.
      * change (N.of_nat 0) with 0. by rewrite N.add_0_r.
      * rewrite <- fmap_S_seq, <- list_fmap_compose.
        apply list_fmap_ext. intros _ k _. simpl. do 2 f_equal. lia.
Qed.

Lemma createBulkTodos_upto_at hi (h : heap) :
  createBulkTodos_upto hi h
  = Some (length h,
          h ++ OArray (seq (S (length h)) (N.to_nat (N.succ hi)))
            :: ((λ k, OTodo (seed_todo (N.of_nat k))) <$> seq 0 (N.to_nat (N.succ hi)))).
Proof.
  unfold createBulkTodos_upto. rewrite bind_unfold. unfold new_obj at 1.
  rewrite bind_unfold.
  rewrite (for_le_push_at hi (N.to_nat (N.succ hi)) 0 h [] []) by (f_equal; lia).
  unfold ret. simpl. by rewrite Nat.add_1_r.
Qed.

Lemma createBulkTodos_upto_fresh hi (h : heap) :
  ∃ h' l,
    createBulkTodos_upto hi h = Some (length h, h')
    ∧ h `prefix_of` h'
    ∧ h' !! length h = Some (OArray l)
    ∧ entries h' l
      = Some ((λ k, seed_todo (N.of_nat k)) <$> seq 0 (N.to_nat (N.succ hi)))
    ∧ N.of_nat (length h') = N.of_nat (length h) + (hi + 2).
Proof.
  eexists _, _. split; [apply createBulkTodos_upto_at|].
  split; [by apply prefix_app_r|].
  split; [by apply list_lookup_middle|].
  split.
  - apply entries_Forall2. apply Forall2_same_length_lookup_2.
    { by rewrite length_fmap, !length_seq. }
    intros n r t [-> Hn]%lookup_seq Ht.
    rewrite list_lookup_fmap, lookup_seq_lt in Ht by done.
    injection Ht as <-. unfold points_to.
    rewrite lookup_app_r by lia.
    replace (S (length h) + n - length h)%nat with (S n) by lia. simpl.
    by rewrite list_lookup_fmap, lookup_seq_lt.
  - rewrite length_app. simpl. rewrite length_fmap, length_seq. lia.
Qed.

(** X11. On any heap [createBulkTodos] returns a reference that did not
    exist, to an array that reads back as the 25001 seed entries; it adds
    25002 objects and leaves every object that existed as it was. *)
Theorem createBulkTodos_fresh_array (h : heap) :
  ∃ h' l,
    createBulkTodos h = Some (length h, h')
    ∧ h `prefix_of` h'
    ∧ h' !! length h = Some (OArray l)
    ∧ entries h' l
      = Some ((λ k, seed_todo (N.of_nat k)) <$> seq 0 (N.to_nat (N.succ 25000)))
    ∧ N.of_nat (length h') = N.of_nat (length h) + 25002.
Proof. exact (createBulkTodos_upto_fresh 25000 h). Qed.

(** ** Several calls before a render *)

Lemma flush_snoc queue updater st :
  flush (queue ++ [updater]) st = st' ← flush queue st; setTodos updater st'.
Proof.
  revert st. induction queue as [|u queue IH]; intros st; simpl.
  - by destruct (setTodos updater st).
  - destruct (setTodos u st) as [st1|]; simpl; [apply IH | done].
Qed.

Lemma contents_later st ts h n :
  contents st = Some ts →
  st_heap st `prefix_of` h →
  contents {| st_heap := h; todos := todos st; nextId := n |} = Some ts.
Proof.
  intros (l & Hl%refs_Some & Hts)%contents_Some Hp.
  apply contents_Some. exists l. split.
  - apply refs_Some. simpl. by eapply prefix_lookup_Some.
  - simpl. eauto with heap.
Qed.

(** The updater of [onInsert], run on a state that holds the new entry. *)
Lemma setTodos_concat st ts r t :
  contents st = Some ts →
  st_heap st !! r = Some (OTodo t) →
  ∃ st',
    setTodos (λ todos, Array_concat todos r) st = Some st'
    ∧ contents st' = Some (ts ++ [t])
    ∧ nextId st' = nextId st
    ∧ st_heap st `prefix_of` st_heap st'.
Proof.
  intros (l & Hl%refs_Some & Hts)%contents_Some Hr.
  unfold setTodos, Array_concat. rewrite bind_unfold. unfold get_array.
  rewrite Hl. unfold new_obj.
  eexists. split; [done|]. split; [|split; [done | apply prefix_snoc]].
  apply contents_alloc_array. apply Forall2_app; [done|].
  constructor; [done | constructor].
Qed.

Lemma queue_gives_nil st ts :
  contents st = Some ts → queue_gives {| w_cells := st; w_queue := [] |} ts.
Proof.
  intros Hc h n Hp. simpl in *. eexists. split; [done|].
  split; [by apply contents_later|]. done.
Qed.

Lemma step_later_gives o w ts :
  queue_gives w ts →
  ∃ w',
    step_later o w = Some w'
    ∧ queue_gives w' (applied o (nextId (w_cells w)) ts)
    ∧ todos (w_cells w') = todos (w_cells w)
    ∧ nextId (w_cells w') = (if is_insert o then nextId (w_cells w) + 1
                             else nextId (w_cells w))
    ∧ length (w_queue w') = S (length (w_queue w))
    ∧ st_heap (w_cells w) `prefix_of` st_heap (w_cells w').
Proof.
  intros Hq. destruct o as [text|i|i]; simpl.
  - unfold onInsert_later, new_obj. simpl. eexists. split; [done|]. simpl.
    split; [|split; [done|split; [done|split;
      [by rewrite length_app, Nat.add_1_r | apply prefix_snoc]]]].
    intros h n Hp. simpl in *. rewrite flush_snoc.
    destruct (Hq h n) as (st1 & -> & Hc1 & Hn1 & Hp1).
    { etrans; [apply prefix_snoc | done]. }
    simpl.
    destruct (setTodos_concat st1 ts (length (st_heap (w_cells w)))
                {| id := nextId (w_cells w); text := text; checked := false |} Hc1)
      as (st2 & Hst2 & Hc2 & Hn2 & Hp2).
    { eapply prefix_lookup_Some; [apply lookup_fresh|]. by etrans. }
    exists st2. split; [done|]. split; [done|].
    split; [congruence | by etrans].
  - eexists. split; [done|]. simpl.
    split; [|split; [done|split; [done|split;
      [by rewrite length_app, Nat.add_1_r | done]]]].
    intros h n Hp. simpl in *. rewrite flush_snoc.
    destruct (Hq h n Hp) as (st1 & -> & Hc1 & Hn1 & Hp1). simpl.
    destruct (onRemove_contents st1 ts i Hc1) as (st2 & Hst2 & Hc2 & Hn2 & Hp2 & _).
    exists st2. split; [exact Hst2|]. split; [done|].
    split; [congruence | by etrans].
  - eexists. split; [done|]. simpl.
    split; [|split; [done|split; [done|split;
      [by rewrite length_app, Nat.add_1_r | done]]]].
    intros h n Hp. simpl in *. rewrite flush_snoc.
    destruct (Hq h n Hp) as (st1 & -> & Hc1 & Hn1 & Hp1). simpl.
    destruct (onToggle_contents st1 ts i Hc1) as (st2 & Hst2 & Hc2 & Hn2 & Hp2 & _).
    exists st2. split; [exact Hst2|]. split; [done|].
    split; [congruence | by etrans].
Qed.

Lemma calls_later_gives ops : ∀ w ts,
  queue_gives w ts →
  ∃ w',
    calls_later ops w = Some w'
    ∧ queue_gives w' (applied_all ops (nextId (w_cells w)) ts)
    ∧ todos (w_cells w') = todos (w_cells w)
    ∧ nextId (w_cells w') = nextId (w_cells w) + N.of_nat (inserts ops)
    ∧ length (w_queue w') = (length (w_queue w) + length ops)%nat
    ∧ st_heap (w_cells w) `prefix_of` st_heap (w_cells w').
Proof.
  induction ops as [|o ops IH]; intros w ts Hq.
  - exists w. unfold inserts. simpl. repeat split; try done; lia.
  - destruct (step_later_gives o w ts Hq) as (w1 & Hw1 & Hq1 & Ht1 & Hn1 & Hl1 & Hp1).
    destruct (IH w1 _ Hq1) as (w' & Hw' & Hq' & Ht' & Hn' & Hl' & Hp').
    exists w'. cbn [calls_later applied_all]. rewrite Hw1. cbn [mbind option_bind].
    rewrite <- Hn1. split; [done|]. split; [done|]. split; [congruence|].
    split.
    { rewrite Hn', Hn1. unfold inserts. simpl. destruct (is_insert o); simpl; lia. }
    split; [simpl; lia | by etrans].
Qed.

(** A single call followed by the render is the handler as [step] has it. *)
Lemma later_then_flush o st :
  (w ← step_later o {| w_cells := st; w_queue := [] |}; flush (w_queue w) (w_cells w))
  = step o st.
Proof.
  destruct o as [text|i|i]; simpl.
  - unfold onInsert, onInsert_later, new_obj, setTodos. simpl.
    by destruct (Array_concat _ _ _) as [[a h]|].
  - unfold onRemove. by destruct (setTodos _ st).
  - unfold onToggle. by destruct (setTodos _ st).
Qed.

(** X12. Handler calls made one after the other with no render in between
    only queue their updaters: the committed array is still the old one and
    still reads the old content, while the counter has already moved.  The
    [useState] of the next render then runs the whole queue, and the
    collection reads back as all the operations applied in order: no call
    is lost to another.  (The counter is kept within 2^53.) *)
Theorem queued_updates_all_apply st ts es :
  contents st = Some ts →
  nextId st + N.of_nat (inserts es) ≤ exact_below →
  ∃ w st',
    calls_later es {| w_cells := st; w_queue := [] |} = Some w
    ∧ length (w_queue w) = length es
    ∧ todos (w_cells w) = todos st
    ∧ contents (w_cells w) = Some ts
    ∧ nextId (w_cells w) = nextId st + N.of_nat (inserts es)
    ∧ flush (w_queue w) (w_cells w) = Some st'
    ∧ contents st' = Some (applied_all es (nextId st) ts).
Proof.
  intros Hc _.
  destruct (calls_later_gives es _ ts (queue_gives_nil st ts Hc))
    as (w & Hw & Hq & Ht & Hn & Hl & Hp).
  simpl in Ht, Hn, Hl, Hp.
  destruct (Hq (st_heap (w_cells w)) (nextId (w_cells w))) as (st' & Hf & Hc' & _);
    [done|].
  exists w, st'. split; [exact Hw|]. split; [exact Hl|]. split; [exact Ht|].
  split.
  { destruct w as [[h a n] q]. simpl in *. subst a.
    by apply (contents_later st ts h n). }
  split; [exact Hn|]. split; [|exact Hc'].
  destruct w as [[h a n] q]. exact Hf.
Qed.

Lemma queued_updates_all_apply_witness :
  ∃ w st',
    calls_later [Insert "a"; Toggle 1; Remove 0; Insert "b"]
      {| w_cells := small; w_queue := [] |} = Some w
    ∧ length (w_queue w) = length [Insert "a"; Toggle 1; Remove 0; Insert "b"]
    ∧ todos (w_cells w) = todos small
    ∧ contents (w_cells w) = Some [seed_todo 0; seed_todo 1; seed_todo 2]
    ∧ nextId (w_cells w)
      = nextId small + N.of_nat (inserts [Insert "a"; Toggle 1; Remove 0; Insert "b"])
    ∧ flush (w_queue w) (w_cells w) = Some st'
    ∧ contents st'
      = Some (applied_all [Insert "a"; Toggle 1; Remove 0; Insert "b"] (nextId small)
                [seed_todo 0; seed_todo 1; seed_todo 2]).
Proof.
  apply (queued_updates_all_apply small).
  - reflexivity.
  - vm_compute. discriminate.
Defined.

(** ** The buttons of a row *)

Lemma row_entry_lookup st ts k :
  contents st = Some ts → row_entry k st = ts !! k.
Proof.
  intros (l & Hl & Hts)%contents_Some. unfold row_entry. rewrite Hl. simpl.
  destruct (l !! k) as [r|] eqn:Hr; simpl.
  - destruct (Forall2_lookup_l _ _ _ _ _ Hts Hr) as (t & Ht & Hpt).
    unfold points_to in Hpt. by rewrite Hpt, Ht.
  - symmetry. apply lookup_ge_None. apply lookup_ge_None in Hr.
    apply Forall2_length in Hts. lia.
Qed.

Lemma removed_delete ts : ∀ k t,
  NoDup (id <$> ts) → ts !! k = Some t → removed (id t) ts = delete k ts.
Proof.
  induction ts as [|u ts IH]; intros k t Hnd Hk; [done|].
  rewrite fmap_cons in Hnd. apply NoDup_cons in Hnd as [Hu Hnd].
  unfold removed. destruct k as [|k]; simpl in Hk.
  - injection Hk as ->. rewrite filter_cons_False by (by intros []).
    simpl. by apply removed_absent.
  - rewrite filter_cons_True.
    + simpl. f_equal. by apply IH.
    + intros Heq. apply Hu. rewrite Heq.
      apply list_elem_of_fmap. exists t. split; [done|].
      by eapply list_elem_of_lookup_2.
Qed.

Lemma toggled_insert ts : ∀ k t,
  NoDup (id <$> ts) → ts !! k = Some t →
  toggled (id t) ts = <[k := flip_checked t]> ts.
Proof.
  induction ts as [|u ts IH]; intros k t Hnd Hk; [done|].
  rewrite fmap_cons in Hnd. apply NoDup_cons in Hnd as [Hu Hnd].
  unfold toggled. rewrite fmap_cons. destruct k as [|k]; simpl in Hk.
  - injection Hk as ->. rewrite decide_True by done. simpl. f_equal.
    by apply toggled_absent.
  - rewrite decide_False.
    + simpl. f_equal. by apply IH.
    + intros Heq. apply Hu. rewrite Heq.
      apply list_elem_of_fmap. exists t. split; [done|].
      by eapply list_elem_of_lookup_2.
Qed.

(** X13. With pairwise distinct ids, the remove button of the row at
    position [k] takes exactly that entry out of the collection and leaves
    the others in place and in order. *)
Theorem click_remove_row st ts k t :
  contents st = Some ts →
  NoDup (id <$> ts) →
  ts !! k = Some t →
  ∃ st', click_remove k st = Some st' ∧ contents st' = Some (delete k ts).
Proof.
  intros Hc Hnd Hk. unfold click_remove.
  rewrite (row_entry_lookup st ts k Hc), Hk. simpl.
  destruct (onRemove_contents st ts (id t) Hc) as (st' & Hst' & Hc' & _).
  exists st'. split; [done|]. by rewrite Hc', (removed_delete ts k t).
Qed.

Lemma click_remove_row_witness :
  ∃ st',
    click_remove 1 small = Some st'
    ∧ contents st' = Some (delete 1%nat [seed_todo 0; seed_todo 1; seed_todo 2]).
Proof.
  apply (click_remove_row small _ 1%nat (seed_todo 1)); [reflexivity | | reflexivity].
  apply (bool_decide_unpack _). vm_compute. exact I.
Defined.

(** X14. With pairwise distinct ids, the checkbox of the row at position
    [k] negates [checked] of exactly that entry: the collection afterwards
    is the old one with position [k] replaced by the flipped entry. *)
Theorem click_toggle_row st ts k t :
  contents st = Some ts →
  NoDup (id <$> ts) →
  ts !! k = Some t →
  ∃ st',
    click_toggle k st = Some st'
    ∧ contents st'
      = Some (<[k := {| id := id t; text := text t; checked := negb (checked t) |}]> ts).
Proof.
  intros Hc Hnd Hk. unfold click_toggle.
  rewrite (row_entry_lookup st ts k Hc), Hk. simpl.
  destruct (onToggle_contents st ts (id t) Hc) as (st' & Hst' & Hc' & _).
  exists st'. split; [done|]. by rewrite Hc', (toggled_insert ts k t).
Qed.

Lemma click_toggle_row_witness :
  ∃ st',
    click_toggle 1 small = Some st'
    ∧ contents st'
      = Some (<[1%nat := {| id := id (seed_todo 1); text := text (seed_todo 1);
                            checked := negb (checked (seed_todo 1)) |}]>
                [seed_todo 0; seed_todo 1; seed_todo 2]).
Proof.
  apply (click_toggle_row small _ 1%nat (seed_todo 1)); [reflexivity | | reflexivity].
  apply (bool_decide_unpack _). vm_compute. exact I.
Defined.
